(** * doxygenize_cmake_options: extraction of CMake [option()] declarations
      and their rendering as a Doxygen table.

    The development embeds [src/doxygenize_cmake_options.py]:
    - Python [str] values are lists of Unicode code points;
    - the regular expression of [parse_cmake_options] is a syntax tree run by
      a backtracking matcher with the priorities of Python's [re] module
      (greedy repeats, leftmost alternative first), under [re.IGNORECASE];
    - [re.finditer] is the left-to-right scan for non-overlapping matches;
    - [main] runs in a small monad over the two output channels, with
      [sys.exit] as an early exit and the [UnicodeEncodeError] of a [print]
      to standard output as an uncaught exception. *)

From Stdlib Require Import String Ascii List NArith Bool Arith Lia.
Import ListNotations.

Set Implicit Arguments.

(* ------------------------------------------------------------------ *)
(** ** Text *)

(** A Python [str]: a sequence of code points. *)
Definition char := N.
Definition text := list char.

(** The code points of a string literal (all of them below 256). *)
Fixpoint txt (s : string) : text :=
  match s with
  | EmptyString => []
  | String a s' => N_of_ascii a :: txt s'
  end.

Definition dquote : char := 34%N.
Definition lparen : char := 40%N.
Definition rparen : char := 41%N.
Definition newline : char := 10%N.

(** [sep.join(parts)]. *)
Fixpoint join (sep : text) (parts : list text) : text :=
  match parts with
  | [] => []
  | [p] => p
  | p :: rest => p ++ sep ++ join sep rest
  end.

(** [s.split(c)] for a one-character separator: the pieces between the
    occurrences of [c]. *)
Fixpoint split_on (c : char) (s : text) : list text :=
  match s with
  | [] => [[]]
  | x :: s' =>
      if N.eqb x c then [] :: split_on c s'
      else match split_on c s' with
           | [] => [[x]]
           | p :: ps => (x :: p) :: ps
           end
  end.

(* ------------------------------------------------------------------ *)
(** ** Characters under [re.IGNORECASE] *)

Module Sre.

Local Open Scope N_scope.

(** [\s] on a [str] pattern: the code points for which [str.isspace] holds. *)
Definition unicode_isspace (c : char) : bool :=
  ((9 <=? c) && (c <=? 13)) || ((28 <=? c) && (c <=? 32))
  || (c =? 133) || (c =? 160) || (c =? 5760)
  || ((8192 <=? c) && (c <=? 8202))
  || (c =? 8232) || (c =? 8233) || (c =? 8239) || (c =? 8287) || (c =? 12288).

(** The simple lower-case mapping the matcher applies to a subject character
    before comparing it.  The pattern's characters are ASCII, so only the code
    points whose image is ASCII matter: [A-Z], U+0130 (capital I with dot
    above) and U+212A (Kelvin sign); every other code point is sent to a
    code point outside ASCII, here to itself. *)
Definition sre_lower_unicode (c : char) : char :=
  if (65 <=? c) && (c <=? 90) then c + 32
  else if c =? 304 then 105
  else if c =? 8490 then 107
  else c.

(** [_ignorecase_fixes]: lower-case letters that share an upper-case letter
    with another lower-case letter (the entries reachable from ASCII). *)
Definition ignorecase_fixes (lo : char) : list char :=
  if lo =? 105 then [305]          (* i, dotless i *)
  else if lo =? 115 then [383]     (* s, long s *)
  else [].

(** Items of a bracketed set. *)
Inductive set_item :=
| SetLiteral (c : char)
| SetRange (lo hi : char).

(** Single-character subpatterns. *)
Inductive atom :=
| Literal (c : char)          (* a character of the pattern *)
| NotLiteral (c : char)       (* [^c] *)
| CategorySpace               (* \s *)
| In_ (items : list set_item) (* [...] *).

Definition codes_between (lo hi : char) : list char :=
  map (fun k => lo + N.of_nat k) (seq 0 (N.to_nat (hi + 1 - lo))).

(** [_optimize_charset] with a case fix-up: the set holds the lower-cased
    members and their fixes. *)
Definition charmap (items : list set_item) : list char :=
  flat_map (fun it =>
              let members := match it with
                             | SetLiteral c => [c]
                             | SetRange lo hi => codes_between lo hi
                             end in
              flat_map (fun i => let lo := sre_lower_unicode i in
                                 lo :: ignorecase_fixes lo) members)
           items.

Definition literal_ignore (p c : char) : bool :=
  let lo := sre_lower_unicode p in
  existsb (N.eqb (sre_lower_unicode c)) (lo :: ignorecase_fixes lo).

(** Does the atom accept the subject character [c]? *)
Definition atom_match (a : atom) (c : char) : bool :=
  match a with
  | Literal p => literal_ignore p c
  | NotLiteral p => negb (literal_ignore p c)
  | CategorySpace => unicode_isspace c
  | In_ items => existsb (N.eqb (sre_lower_unicode c)) (charmap items)
  end.

End Sre.
Import Sre.

(* ------------------------------------------------------------------ *)
(** ** Regular expressions and the backtracking matcher *)

Module Re.

(** The constructions the option pattern uses.  Every repeated subpattern of
    that pattern is a single-character atom, so repeats take an atom. *)
Inductive regex :=
| Empty                          (* the empty pattern *)
| Atom (a : atom)
| Cat (r1 r2 : regex)            (* r1 r2 *)
| Branch (r1 r2 : regex)         (* r1|r2 *)
| Star (a : atom)                (* a*, greedy *)
| Plus (a : atom)                (* a+, greedy *)
| Optional (r : regex)           (* (?:r)?, greedy *)
| Group (n : nat) (r : regex)    (* capturing group number n *).

(** The text of a literal word, one [Literal] per character. *)
Fixpoint word (w : text) : regex :=
  match w with
  | [] => Empty
  | c :: w' => Cat (Atom (Literal c)) (word w')
  end.

(** Captured groups: the most recent capture of a group comes first. *)
Definition groups := list (nat * text).

Fixpoint group_lookup (g : groups) (n : nat) : option text :=
  match g with
  | [] => None
  | (m, t) :: g' => if Nat.eqb m n then Some t else group_lookup g' n
  end.

Section Matcher.
Variable A : Type.

(** What remains to be matched after a subpattern: it receives the rest of
    the subject and the captures so far, and fails with [None]. *)
Definition cont := text -> groups -> option A.

Definition or_else (x : option A) (y : option A) : option A :=
  match x with
  | Some r => Some r
  | None => y
  end.

(** Greedy repeat of an atom: take one more character when possible and
    give it back if the rest then fails. *)
Fixpoint max_repeat (a : atom) (s : text) (g : groups) (k : cont) : option A :=
  match s with
  | c :: s' =>
      if atom_match a c then or_else (max_repeat a s' g k) (k s g)
      else k s g
  | [] => k s g
  end.

Fixpoint rmatch (r : regex) (s : text) (g : groups) (k : cont) : option A :=
  match r with
  | Empty => k s g
  | Atom a =>
      match s with
      | c :: s' => if atom_match a c then k s' g else None
      | [] => None
      end
  | Cat r1 r2 => rmatch r1 s g (fun s' g' => rmatch r2 s' g' k)
  | Branch r1 r2 => or_else (rmatch r1 s g k) (rmatch r2 s g k)
  | Star a => max_repeat a s g k
  | Plus a =>
      match s with
      | c :: s' => if atom_match a c then max_repeat a s' g k else None
      | [] => None
      end
  | Optional r1 => or_else (rmatch r1 s g k) (k s g)
  | Group n r1 =>
      rmatch r1 s g
        (fun s' g' =>
           k s' ((n, firstn (length s - length s') s) :: g'))
  end.
End Matcher.

(** A match object: its groups, and the subject from the end of the match. *)
Record match_object := MatchObject {
  m_groups : groups;
  m_rest : text
}.

(** [match.group(n)]; [None] when the group took no part in the match. *)
Definition group (m : match_object) (n : nat) : option text :=
  group_lookup (m_groups m) n.

(** [pattern.match] at the head of [s]. *)
Definition match_here (p : regex) (s : text) : option match_object :=
  rmatch p s [] (fun rest g => Some (MatchObject g rest)).

(** [re.finditer]: try each position from left to right and resume at the
    end of a match.  [fuel] bounds the number of steps; a scan of [s] takes
    at most [length s + 1] of them. *)
Fixpoint finditer_from (fuel : nat) (p : regex) (s : text) : list match_object :=
  match fuel with
  | O => []
  | S fuel' =>
      match match_here p s with
      | Some m => m :: finditer_from fuel' p (m_rest m)
      | None =>
          match s with
          | [] => []
          | _ :: s' => finditer_from fuel' p s'
          end
      end
  end.

Definition finditer (p : regex) (s : text) : list match_object :=
  finditer_from (S (length s)) p s.

(** The words a pattern accepts, without priorities or captures. *)
Fixpoint lang (r : regex) (w : text) : Prop :=
  match r with
  | Empty => w = []
  | Atom a => exists c, w = [c] /\ atom_match a c = true
  | Cat r1 r2 => exists w1 w2, w = w1 ++ w2 /\ lang r1 w1 /\ lang r2 w2
  | Branch r1 r2 => lang r1 w \/ lang r2 w
  | Star a => Forall (fun c => atom_match a c = true) w
  | Plus a => w <> [] /\ Forall (fun c => atom_match a c = true) w
  | Optional r1 => w = [] \/ lang r1 w
  | Group _ r1 => lang r1 w
  end.

End Re.
Import Re.

(* ------------------------------------------------------------------ *)
(** ** The extractor *)

(** An entry of the list [parse_cmake_options] returns: a dictionary with the
    keys ['name'], ['description'] and ['default']. *)
Record option_entry := OptionEntry {
  name : text;
  description : text;
  default : text
}.

Definition name_class : atom :=
  In_ [SetRange 65 90; SetRange 97 122; SetRange 48 57;
       SetLiteral 95; SetLiteral 45]%N.

(** [ON|OFF|TRUE|FALSE], the alternatives of the third group. *)
Definition default_alternatives : regex :=
  Branch (word (txt "ON"))
    (Branch (word (txt "OFF"))
       (Branch (word (txt "TRUE")) (word (txt "FALSE")))).

(** The pattern of line 32, where Q stands for the double quote:
    written token by token (the spaces are not part of it),
    [option \s* \( \s* ( [A-Za-z0-9_-]+ ) \s+ Q ( [^Q]* ) Q \s* (?: ( ON|OFF|TRUE|FALSE ) )? \s* \) ],
    compiled with [re.IGNORECASE]. *)
Definition option_pattern : regex :=
  Cat (word (txt "option"))
    (Cat (Star CategorySpace)
    (Cat (Atom (Literal lparen))
    (Cat (Star CategorySpace)
    (Cat (Group 1 (Plus name_class))
    (Cat (Plus CategorySpace)
    (Cat (Atom (Literal dquote))
    (Cat (Group 2 (Star (NotLiteral dquote)))
    (Cat (Atom (Literal dquote))
    (Cat (Star CategorySpace)
    (Cat (Optional (Group 3 default_alternatives))
    (Cat (Star CategorySpace)
         (Atom (Literal rparen))))))))))))).

(** Lines 36-44: the entry built from one match; a missing (or empty) third
    group gives the default ["OFF"].  The first two groups take part in every
    match of the pattern, so their [None] branch is never taken. *)
Definition entry_of_match (m : match_object) : option_entry :=
  let option_name := match group m 1 with Some t => t | None => [] end in
  let description := match group m 2 with Some t => t | None => [] end in
  let default_value :=
    match group m 3 with
    | Some (c :: t) => c :: t
    | _ => txt "OFF"
    end in
  OptionEntry option_name description default_value.

(** Lines 30-46: the loop over the matches, appending to [options]. *)
Definition options_of_content (content : text) : list option_entry :=
  fold_left (fun options m => options ++ [entry_of_match m])
            (finditer option_pattern content) [].

(* ------------------------------------------------------------------ *)
(** ** The formatter *)

Definition table_heading : list text :=
  [ txt "The following CMake build options can be used to configure the build by setting them with `-D<OPTION>=<VALUE>`.";
    [];
    txt "| Option | Description | Default |";
    txt "|--------|-------------|---------|" ].

Definition install_prefix_row : text :=
  txt "| CMAKE_INSTALL_PREFIX | Installation path | /usr/local |".

(** The f-string of line 72. *)
Definition table_row (o : option_entry) : text :=
  txt "| " ++ name o ++ txt " | " ++ description o ++ txt " | "
      ++ default o ++ txt " |".

Definition generate_doxygen_table (options : list option_entry) : text :=
  match options with
  | [] => txt "No CMake options found."
  | _ :: _ =>
      let doxygen_output := table_heading ++ [install_prefix_row] in
      let doxygen_output :=
        fold_left (fun out o => out ++ [table_row o]) options doxygen_output in
      join [newline] doxygen_output
  end.

(* ------------------------------------------------------------------ *)
(** ** Files, channels and the entry point *)

(** What [open(path, 'r', encoding='utf-8')] followed by [read()] gives:
    the decoded content, or an exception with its message. *)
Inductive read_result :=
| ReadOk (content : text)
| ReadRaises (message : text).

(** The exception [print] raises when standard output cannot encode a
    character of the text it is given. *)
Inductive exception :=
| UnicodeEncodeError (object : text).

(** What a run meets outside the program: the files, the encoding of
    standard output, and the interpreter's report of an uncaught exception. *)
Record environment := Environment {
  isfile : text -> bool;          (* os.path.isfile *)
  open_read : text -> read_result;
  (* the bytes standard output writes for a character, [None] when its
     encoding has no such character *)
  stdout_codec : char -> option (list N);
  (* the traceback of an uncaught exception, after its first line *)
  traceback_body : exception -> text
}.

(** Every text encoding has the ASCII characters; the other characters are
    those the codec of standard output gives bytes for. *)
Definition encodes (env : environment) (c : char) : bool :=
  N.ltb c 128 ||
  match stdout_codec env c with Some _ => true | None => false end.

Definition encodable_text (env : environment) (t : text) : bool :=
  forallb (encodes env) t.



Module IO.

Record channels := Channels {
  out : text;   (* standard output *)
  err : text    (* standard error *)
}.

Inductive result (A : Type) :=
| Return (a : A)
| Exit (code : nat)        (* sys.exit(code) *)
| Raises (e : exception).  (* an exception nothing catches *)
Arguments Return {A} a.
Arguments Exit {A} code.
Arguments Raises {A} e.

Definition io (A : Type) := channels -> result A * channels.

Definition ret {A} (a : A) : io A := fun ch => (Return a, ch).

Definition bind {A B} (m : io A) (f : A -> io B) : io B :=
  fun ch =>
    match m ch with
    | (Return a, ch') => f a ch'
    | (Exit code, ch') => (Exit code, ch')
    | (Raises e, ch') => (Raises e, ch')
    end.

(** [print(t)]: the text and a newline on standard output.  Standard output
    encodes strictly: a character its encoding does not have raises
    [UnicodeEncodeError] before anything of [t] is written. *)
Definition print (env : environment) (t : text) : io unit :=
  fun ch =>
    if encodable_text env t
    then (Return tt, Channels (out ch ++ t ++ [newline]) (err ch))
    else (Raises (UnicodeEncodeError t), ch).

(** [print(t, file=sys.stderr)]: the text and a newline on standard error,
    which escapes what it cannot encode and so never raises. *)
Definition print_stderr (t : text) : io unit :=
  fun ch => (Return tt, Channels (out ch) (err ch ++ t ++ [newline])).

Definition sys_exit {A} (code : nat) : io A := fun ch => (Exit code, ch).

End IO.
Import IO.

Notation "x <- m ;; k" := (bind m (fun x => k))
  (at level 61, m at next level, right associativity).
Notation "m ;;; k" := (bind m (fun _ => k))
  (at level 61, right associativity).

Definition parse_cmake_options (fs : environment) (cmake_file_path : text)
  : io (list option_entry) :=
  match open_read fs cmake_file_path with
  | ReadRaises e =>
      print_stderr (txt "Error reading file " ++ cmake_file_path
                        ++ txt ": " ++ e) ;;;
      ret []
  | ReadOk content => ret (options_of_content content)
  end.

(** The path [main] works on: [sys.argv[1]] when there is one. *)
Definition cmake_path_of (argv : list text) : text :=
  match argv with
  | _ :: p :: _ => p
  | _ => txt "CMakeLists.txt"
  end.

Definition main (argv : list text) (fs : environment) : io unit :=
  let cmake_path := cmake_path_of argv in
  (if negb (isfile fs cmake_path)
   then print_stderr (txt "Error: File '" ++ cmake_path ++ txt "' not found.") ;;;
        sys_exit 1
   else ret tt) ;;;
  options <- parse_cmake_options fs cmake_path ;;
  let doxygen_doc := generate_doxygen_table options in
  print fs doxygen_doc.

(** The first line of the report of an uncaught exception. *)
Definition traceback_head : text := txt "Traceback (most recent call last):".

(** One run of the program: what it wrote and its exit status.  An uncaught
    exception ends the run with the traceback on standard error and
    status 1. *)
Record outcome := Outcome {
  stdout : text;
  stderr : text;
  exit_code : nat
}.

Definition run (argv : list text) (fs : environment) : outcome :=
  match main argv fs (Channels [] []) with
  | (Return _, ch) => Outcome (out ch) (err ch) 0
  | (Exit code, ch) => Outcome (out ch) (err ch) code
  | (Raises e, ch) =>
      Outcome (out ch)
              (err ch ++ traceback_head ++ newline :: traceback_body fs e)
              1
  end.

(* ------------------------------------------------------------------ *)
(** ** Character sets used in the statements *)

Module CharSets.

Local Open Scope N_scope.

Definition ascii_letter (p : char) : Prop :=
  (65 <= p <= 90) \/ (97 <= p <= 122).

(** The subject characters a letter of the pattern accepts. *)
Definition letter_like (c : char) : Prop :=
  (65 <= c <= 90) \/ (97 <= c <= 122)
  \/ c = 304 \/ c = 305 \/ c = 383 \/ c = 8490.

(** The members of the name class, as ranges. *)
Definition name_code (x : char) : bool :=
  ((48 <=? x) && (x <=? 57)) || ((97 <=? x) && (x <=? 122))
  || (x =? 95) || (x =? 45) || (x =? 305) || (x =? 383).

End CharSets.
Import CharSets.

(* ------------------------------------------------------------------ *)
(** ** Declarations, as the grammar writes them *)

(** The parts of one written declaration
    [option ( <name> Q<description>Q [<default>] )], white space included. *)
Record declaration := Declaration {
  d_keyword : text;         (* the keyword as spelled in the file *)
  d_after_keyword : text;   (* white space before the opening parenthesis *)
  d_after_open : text;      (* white space after the opening parenthesis *)
  d_name : text;
  d_after_name : text;      (* white space between the name and the quote *)
  d_description : text;
  d_after_description : text;
  d_default : option text;  (* the trailing token, when one is written *)
  d_before_close : text     (* white space before the closing parenthesis *)
}.

Definition source_text (d : declaration) : text :=
  d_keyword d ++ d_after_keyword d ++ lparen :: d_after_open d
    ++ d_name d ++ d_after_name d
    ++ dquote :: d_description d ++ dquote :: d_after_description d
    ++ match d_default d with Some v => v | None => [] end
    ++ d_before_close d ++ [rparen].

Definition whitespace (w : text) : bool := forallb unicode_isspace w.

Definition name_token (w : text) : bool :=
  match w with
  | [] => false
  | _ :: _ => forallb (atom_match name_class) w
  end.

Definition unquoted (w : text) : bool :=
  forallb (fun c => negb (N.eqb c dquote)) w.

(** [t] spells [w], case ignored as the matcher ignores it. *)
Fixpoint spelled (w t : text) : bool :=
  match w, t with
  | [], [] => true
  | p :: w', c :: t' => literal_ignore p c && spelled w' t'
  | _, _ => false
  end.

Definition default_token (v : text) : bool :=
  spelled (txt "ON") v || spelled (txt "OFF") v
  || spelled (txt "TRUE") v || spelled (txt "FALSE") v.

(** Comparison of ASCII texts without regard to case. *)
Definition ascii_lower (c : char) : char :=
  (if (65 <=? c) && (c <=? 90) then c + 32 else c)%N.

Fixpoint caseless_eq (w t : text) : bool :=
  match w, t with
  | [], [] => true
  | p :: w', c :: t' => N.eqb (ascii_lower p) (ascii_lower c) && caseless_eq w' t'
  | _, _ => false
  end.

Definition default_words : list text :=
  [txt "ON"; txt "OFF"; txt "TRUE"; txt "FALSE"].

(** The white space, the name and the description are as the grammar asks. *)
Definition layout (d : declaration) : bool :=
  whitespace (d_after_keyword d) && whitespace (d_after_open d)
  && name_token (d_name d) && whitespace (d_after_name d)
  && unquoted (d_description d)
  && whitespace (d_after_description d) && whitespace (d_before_close d).

(** Everything but the trailing token is as the grammar asks. *)
Definition well_formed (d : declaration) : bool :=
  spelled (txt "option") (d_keyword d)
  && whitespace (d_after_keyword d) && whitespace (d_after_open d)
  && name_token (d_name d) && whitespace (d_after_name d)
  && unquoted (d_description d)
  && whitespace (d_after_description d) && whitespace (d_before_close d).

Definition default_written (d : declaration) : bool :=
  match d_default d with
  | Some v => default_token v
  | None => true
  end.

(** The entry a declaration stands for. *)
Definition entry_of_declaration (d : declaration) : option_entry :=
  OptionEntry (d_name d) (d_description d)
              (match d_default d with Some v => v | None => txt "OFF" end).

Definition ascii_letterb (p : char) : bool :=
  (((65 <=? p) && (p <=? 90)) || ((97 <=? p) && (p <=? 122)))%N.

(** The head of a text is outside the class of an atom, or there is none. *)
Definition stops (a : atom) (s : text) : Prop :=
  match s with
  | [] => True
  | c :: _ => atom_match a c = false
  end.

(** The groups a declaration's match holds, most recent first. *)
Definition groups_of_declaration (d : declaration) : groups :=
  match d_default d with
  | Some v => [(3, v); (2, d_description d); (1, d_name d)]
  | None => [(2, d_description d); (1, d_name d)]
  end.

Definition quote_free (t : text) : Prop := Forall (fun c => c <> dquote) t.

Definition quotes (t : text) : nat := count_occ N.eq_dec t dquote.

(** The text before the opening quote and after the closing quote. *)
Definition before_quote (d : declaration) : text :=
  d_keyword d ++ d_after_keyword d ++ lparen :: d_after_open d
    ++ d_name d ++ d_after_name d.

Definition after_quote (d : declaration) : text :=
  d_after_description d
    ++ match d_default d with Some v => v | None => [] end
    ++ d_before_close d ++ [rparen].

(** A trailing token as CMake reads an unquoted argument: not empty, and
    without white space, closing parenthesis or quote. *)
Definition bare_token (tok : text) : bool :=
  match tok with
  | [] => false
  | _ :: _ =>
      forallb (fun c => negb (unicode_isspace c) && negb (N.eqb c rparen)
                        && negb (N.eqb c dquote)) tok
  end.

Definition token_char (c : char) : Prop :=
  unicode_isspace c = false /\ c <> rparen.

Definition physical_lines (t : text) : nat := length (split_on newline t).

(** The table has the four heading lines, the installation-prefix row, and
    then a row for each match, in the order of the matches: the entry built
    from the match holds the matched name and description (and [OFF] when no
    default was matched), and its row is made of these three texts. *)
Definition one_row_per_match (content : text) : Prop :=
  exists rows : list text,
    generate_doxygen_table (options_of_content content)
    = join [newline] (table_heading ++ install_prefix_row :: rows)
    /\ length rows = length (finditer option_pattern content)
    /\ forall i m,
         nth_error (finditer option_pattern content) i = Some m ->
         let e := entry_of_match m in
         group m 1 = Some (name e)
         /\ group m 2 = Some (description e)
         /\ (group m 3 = None -> default e = txt "OFF")
         /\ nth_error (options_of_content content) i = Some e
         /\ nth_error rows i
            = Some (txt "| " ++ name e ++ txt " | " ++ description e
                        ++ txt " | " ++ default e ++ txt " |").

(** The property "this declaration gives exactly its entry". *)
Definition yields_entry (d : declaration) : Prop :=
  options_of_content (source_text d) = [entry_of_declaration d].

(* ------------------------------------------------------------------ *)
(** ** Sample inputs *)

(** [OPTION(FOO QbarQ on)] with Q the quote: upper-case keyword,
    lower-case default. *)
Definition sample_mixed_case : declaration :=
  Declaration (txt "OPTION") [] [] (txt "FOO") (txt " ") (txt "bar")
              (txt " ") (Some (txt "on")) [].

(** [option(ENABLE_DOCS QBuild docsQ)] with Q the quote: no default
    written. *)
Definition sample_no_default : declaration :=
  Declaration (txt "option") [] [] (txt "ENABLE_DOCS") (txt " ")
              (txt "Build docs") [] None [].

(** [option(FOOQbarQ ON)]: nothing between the name and the quote. *)
Definition sample_unseparated : declaration :=
  Declaration (txt "option") [] [] (txt "FOO") [] (txt "bar")
              (txt " ") (Some (txt "ON")) [].

(** [option(FOO QbarQ MAYBE)]: a trailing token that is no default token. *)
Definition sample_unrecognised : declaration :=
  Declaration (txt "option") [] [] (txt "FOO") (txt " ") (txt "bar")
              (txt " ") (Some (txt "MAYBE")) [].

(** A description over two lines. *)
Definition sample_two_lines : declaration :=
  Declaration (txt "option") [] [] (txt "FOO") (txt " ")
              (txt "first" ++ newline :: txt "second")
              (txt " ") (Some (txt "ON")) [].

(** UTF-8, the bytes of every code point but the surrogates. *)
Definition utf8_codec (c : char) : option (list N) :=
  (if c <? 128 then Some [c]
   else if c <? 2048 then Some [192 + c / 64; 128 + c mod 64]
   else if (55296 <=? c) && (c <=? 57343) then None
   else if c <? 65536
        then Some [224 + c / 4096; 128 + (c / 64) mod 64; 128 + c mod 64]
   else if c <? 1114112
        then Some [240 + c / 262144; 128 + (c / 4096) mod 64;
                   128 + (c / 64) mod 64; 128 + c mod 64]
   else None)%N.

(** ASCII, which has the first 128 code points only. *)
Definition ascii_codec (c : char) : option (list N) :=
  if N.ltb c 128 then Some [c] else None.

(** The report of the interpreter, cut down to the exception's name. *)
Definition sample_traceback (e : exception) : text :=
  txt "UnicodeEncodeError".

(** A file system where every path is a file and every read gives [r];
    standard output is in UTF-8. *)
Definition sample_filesystem (r : read_result) : environment :=
  Environment (fun p => true) (fun p => r) utf8_codec sample_traceback.

(** The same with standard output in ASCII. *)
Definition sample_ascii_terminal (r : read_result) : environment :=
  Environment (fun p => true) (fun p => r) ascii_codec sample_traceback.

(** [option(FOO QcafeQ ON)] with Q the quote and an acute accent on the
    last letter of the description: a character outside ASCII. *)
Definition sample_accented : declaration :=
  Declaration (txt "option") [] [] (txt "FOO") (txt " ")
              (txt "caf" ++ [233%N]) (txt " ") (Some (txt "ON")) [].


(** A file system without any file. *)
Definition no_filesystem : environment :=
  Environment (fun p => false) (fun p => ReadRaises [])
              utf8_codec sample_traceback.

(* ------------------------------------------------------------------ *)
(** ** Texts holding several declarations *)

(** Declarations one after the other, each after a gap of other text, and
    then a tail. *)
Fixpoint assemble (l : list (text * declaration)) (tail : text) : text :=
  match l with
  | [] => tail
  | (gap, d) :: l' => gap ++ source_text d ++ assemble l' tail
  end.

(** A declaration as the pattern wants it: well formed, white space after
    the name, and a default token or none. *)
Definition matchable (d : declaration) : bool :=
  well_formed d && negb (Nat.eqb (length (d_after_name d)) 0)
  && default_written d.

(** No letter o, in either case: the keyword can start nowhere. *)
Definition no_keyword_start (t : text) : bool :=
  forallb (fun c => negb (N.eqb c 111 || N.eqb c 79)) t.

Definition no_newline (t : text) : bool :=
  forallb (fun c => negb (N.eqb c newline)) t.

(** An entry whose three texts hold no newline. *)
Definition single_line (e : option_entry) : bool :=
  no_newline (name e) && no_newline (description e) && no_newline (default e).


(** A comment marker, a declaration, and the same declaration twice more. *)
Definition sample_sequence : list (text * declaration) :=
  [ (txt "# ", sample_mixed_case);
    ([newline], sample_no_default);
    (txt "  ", sample_mixed_case) ].

(** The declaration of [sample_mixed_case], laid out over several lines and
    with the keyword in lower case. *)
Definition sample_other_layout : declaration :=
  Declaration (txt "option") (txt " ") [newline] (txt "FOO")
              (newline :: txt "    ") (txt "bar")
              [] (Some (txt "on")) (txt "  ").




(* ================================================================== *)
(** * Proofs *)

(* ------------------------------------------------------------------ *)
(** ** Lists and text *)

Lemma fold_left_snoc_map (A B : Type) (f : A -> B) (l : list A) (acc : list B) :
  fold_left (fun out x => out ++ [f x]) l acc = acc ++ map f l.
Proof.
  revert acc; induction l as [|x l IH]; intros acc; simpl.
  - now rewrite app_nil_r.
  - rewrite IH, <- app_assoc. reflexivity.
Qed.

Lemma firstn_length_app (A : Type) (w s : list A) :
  firstn (length (w ++ s) - length s) (w ++ s) = w.
Proof.
  rewrite length_app, Nat.add_sub.
  rewrite firstn_app, Nat.sub_diag, firstn_all. simpl. apply app_nil_r.
Qed.

(** The first element outside a class splits a text in one way only. *)
Lemma first_outside_unique (P : char -> Prop) (l1 l2 : text) x1 x2 r1 r2 :
  Forall P l1 -> ~ P x1 -> Forall P l2 -> ~ P x2 ->
  l1 ++ x1 :: r1 = l2 ++ x2 :: r2 ->
  l1 = l2 /\ x1 = x2 /\ r1 = r2.
Proof.
  intros H1 N1 H2 N2. revert l2 H2.
  induction H1 as [|a l1 Pa H1 IH]; intros l2 H2 E.
  - destruct H2 as [|b l2 Pb H2]; simpl in E.
    + inversion E; auto.
    + inversion E; subst. contradiction.
  - destruct H2 as [|b l2 Pb H2]; simpl in E.
    + inversion E; subst. contradiction.
    + inversion E; subst. destruct (IH l2 H2 H3) as (-> & -> & ->); auto.
Qed.

(* ------------------------------------------------------------------ *)
(** ** The matcher and the language of a pattern *)

Section MatcherFacts.
Variable A : Type.
Implicit Types (k : cont A) (g : groups) (s w : text).

Lemma or_else_some (x y : option A) r :
  or_else x y = Some r -> x = Some r \/ (x = None /\ y = Some r).
Proof. destruct x; simpl; intros H; [left|right]; auto. Qed.

Lemma max_repeat_sound a s g k x :
  max_repeat a s g k = Some x ->
  exists w s', s = w ++ s' /\ Forall (fun c => atom_match a c = true) w
               /\ k s' g = Some x.
Proof.
  revert x; induction s as [|c s IH]; intros x; simpl.
  - intros H. exists [], []. auto.
  - destruct (atom_match a c) eqn:Hc.
    + intros H. apply or_else_some in H. destruct H as [H|[_ H]].
      * destruct (IH _ H) as (w & s' & -> & Hw & Hk).
        exists (c :: w), s'. auto.
      * exists [], (c :: s). auto.
    + intros H. exists [], (c :: s). auto.
Qed.

(** Whatever the matcher accepts is a word of the pattern followed by a
    rest the continuation accepts; captures are only ever added. *)
Lemma rmatch_sound r : forall s g k x,
  rmatch r s g k = Some x ->
  exists w s' g', s = w ++ s' /\ lang r w /\ (exists d, g' = d ++ g)
                  /\ k s' g' = Some x.
Proof.
  induction r as [|a|r1 IH1 r2 IH2|r1 IH1 r2 IH2|a|a|r1 IH1|n r1 IH1];
    intros s g k x H; simpl in H.
  - exists [], s, g. repeat split; auto. now exists [].
  - destruct s as [|c s]; [discriminate|].
    destruct (atom_match a c) eqn:Hc; [|discriminate].
    exists [c], s, g. repeat split; simpl; eauto. now exists [].
  - apply IH1 in H. destruct H as (w1 & s1 & g1 & -> & L1 & [d1 ->] & H).
    apply IH2 in H. destruct H as (w2 & s2 & g2 & -> & L2 & [d2 ->] & H).
    exists (w1 ++ w2), s2, (d2 ++ d1 ++ g). rewrite <- app_assoc.
    repeat split; simpl; eauto. exists (d2 ++ d1). now rewrite app_assoc.
  - apply or_else_some in H. destruct H as [H|[_ H]].
    + apply IH1 in H. destruct H as (w & s' & g' & ? & ? & ? & ?).
      exists w, s', g'. simpl. auto.
    + apply IH2 in H. destruct H as (w & s' & g' & ? & ? & ? & ?).
      exists w, s', g'. simpl. auto.
  - apply max_repeat_sound in H. destruct H as (w & s' & -> & Hw & H).
    exists w, s', g. repeat split; auto. now exists [].
  - destruct s as [|c s]; [discriminate|].
    destruct (atom_match a c) eqn:Hc; [|discriminate].
    apply max_repeat_sound in H. destruct H as (w & s' & -> & Hw & H).
    exists (c :: w), s', g. repeat split; simpl; auto.
    + discriminate.
    + now exists [].
  - apply or_else_some in H. destruct H as [H|[_ H]].
    + apply IH1 in H. destruct H as (w & s' & g' & ? & ? & ? & ?).
      exists w, s', g'. simpl. auto.
    + exists [], s, g. repeat split; simpl; auto. now exists [].
  - apply IH1 in H. destruct H as (w & s' & g' & -> & L & [d ->] & H).
    exists w, s', ((n, firstn (length (w ++ s') - length s') (w ++ s')) :: d ++ g).
    repeat split; simpl; auto.
    now exists ((n, firstn (length (w ++ s') - length s') (w ++ s')) :: d).
Qed.

(** A greedy repeat takes the whole run of accepted characters when what
    follows the run is accepted by the continuation. *)
Lemma max_repeat_run a w s g k x :
  Forall (fun c => atom_match a c = true) w ->
  k s g = Some x ->
  match s with [] => True | c :: _ => atom_match a c = false end ->
  max_repeat a (w ++ s) g k = Some x.
Proof.
  intros Hw Hk Hs. induction Hw as [|c w Hc Hw IH]; simpl.
  - destruct s as [|c s]; simpl; auto. now rewrite Hs.
  - now rewrite Hc, IH.
Qed.

Lemma rmatch_word w : forall w' s g k,
  Forall2 (fun p c => literal_ignore p c = true) w w' ->
  rmatch (word w) (w' ++ s) g k = k s g.
Proof.
  induction w as [|p w IH]; intros w' s g k H; inversion H; subst; simpl.
  - reflexivity.
  - rewrite H2. apply IH. assumption.
Qed.
End MatcherFacts.

Lemma match_here_sound p s m :
  match_here p s = Some m -> exists w, s = w ++ m_rest m /\ lang p w.
Proof.
  unfold match_here. intros H. apply rmatch_sound in H.
  destruct H as (w & s' & g' & -> & L & _ & H). inversion H; subst; simpl.
  now exists w.
Qed.

Section Scan.
Variable p : regex.
Hypothesis nonempty : forall w, lang p w -> w <> [].

Lemma match_here_shorter s m :
  match_here p s = Some m -> length (m_rest m) < length s.
Proof.
  intros H. apply match_here_sound in H. destruct H as (w & -> & L).
  apply nonempty in L. destruct w; [congruence|].
  simpl. rewrite length_app. lia.
Qed.

(** The scan never runs out of fuel: any fuel above the length of the
    subject gives the same matches. *)
Lemma finditer_from_enough : forall f1 f2 s,
  length s < f1 -> length s < f2 ->
  finditer_from f1 p s = finditer_from f2 p s.
Proof.
  induction f1 as [|f1 IH]; intros f2 s H1 H2; [lia|].
  destruct f2 as [|f2]; [lia|]. simpl.
  destruct (match_here p s) as [m|] eqn:E.
  - apply match_here_shorter in E. f_equal. apply IH; lia.
  - destruct s as [|c s]; auto. simpl in *. apply IH; lia.
Qed.

Lemma finditer_match s m :
  match_here p s = Some m -> finditer p s = m :: finditer p (m_rest m).
Proof.
  intros E. unfold finditer at 1. simpl. rewrite E. f_equal.
  apply match_here_shorter in E. apply finditer_from_enough; lia.
Qed.

Lemma finditer_skip c s :
  match_here p (c :: s) = None -> finditer p (c :: s) = finditer p s.
Proof.
  intros E. unfold finditer at 1.
  change (finditer_from (S (length (c :: s))) p (c :: s))
    with (match match_here p (c :: s) with
          | Some m => m :: finditer_from (length (c :: s)) p (m_rest m)
          | None => finditer_from (length (c :: s)) p s
          end).
  rewrite E. reflexivity.
Qed.

Lemma finditer_nil : finditer p [] = [].
Proof.
  unfold finditer. simpl. destruct (match_here p []) as [m|] eqn:E; auto.
  apply match_here_shorter in E. simpl in E. lia.
Qed.

(** No position matches: no match is found. *)
Lemma finditer_no_match s :
  (forall pre t, s = pre ++ t -> match_here p t = None) ->
  finditer p s = [].
Proof.
  induction s as [|c s IH]; intros H.
  - apply finditer_nil.
  - rewrite finditer_skip by (apply (H []); reflexivity).
    apply IH. intros pre t ->. apply (H (c :: pre)). reflexivity.
Qed.
End Scan.

(* ------------------------------------------------------------------ *)
(** ** Character classes of the option pattern *)

Module Chars.

Local Open Scope N_scope.

Ltac to_props :=
  repeat (rewrite ?orb_false_r, ?orb_true_iff, ?andb_true_iff, ?orb_false_iff,
            ?andb_false_iff, ?negb_true_iff, ?negb_false_iff,
            ?N.eqb_eq, ?N.eqb_neq, ?N.leb_le, ?N.leb_gt in * ).

Ltac split_ifs :=
  repeat match goal with
         | |- context [if ?b then _ else _] => destruct b eqn:?
         | H : context [if ?b then _ else _] |- _ => destruct b eqn:?
         end.

(** What a subject character can be when its lower-case image is known. *)
Lemma sre_lower_unicode_inv c x :
  sre_lower_unicode c = x ->
  (65 <= c <= 90 /\ x = c + 32) \/ (c = 304 /\ x = 105)
  \/ (c = 8490 /\ x = 107)
  \/ (c = x /\ ~ (65 <= c <= 90) /\ c <> 304 /\ c <> 8490).
Proof.
  unfold sre_lower_unicode. split_ifs; to_props; intros; lia.
Qed.

Lemma sre_lower_letter p :
  ascii_letter p -> 97 <= sre_lower_unicode p <= 122.
Proof.
  unfold ascii_letter, sre_lower_unicode. split_ifs; to_props; lia.
Qed.

(** A literal compared without case: the images agree, or the subject's
    image is a fix of the pattern's. *)
Lemma literal_ignore_inv p c :
  literal_ignore p c = true ->
  sre_lower_unicode c = sre_lower_unicode p
  \/ (sre_lower_unicode p = 105 /\ sre_lower_unicode c = 305)
  \/ (sre_lower_unicode p = 115 /\ sre_lower_unicode c = 383).
Proof.
  unfold literal_ignore, ignorecase_fixes.
  generalize (sre_lower_unicode p) (sre_lower_unicode c). intros lo lc.
  split_ifs; cbn [existsb]; to_props; intros; lia.
Qed.

(** Literals that are not letters stand for themselves. *)
Lemma literal_ignore_exact p c :
  p < 65 -> (literal_ignore p c = true <-> c = p).
Proof.
  intros Hp. unfold literal_ignore, ignorecase_fixes, sre_lower_unicode.
  split_ifs; cbn [existsb]; to_props; lia.
Qed.

Lemma literal_ignore_letter p c :
  ascii_letter p -> literal_ignore p c = true -> letter_like c.
Proof.
  intros Hp H. apply sre_lower_letter in Hp. apply literal_ignore_inv in H.
  unfold letter_like.
  destruct (sre_lower_unicode_inv c eq_refl) as [?|[?|[?|?]]]; lia.
Qed.

(** Two letters accept a common character only if they are the same letter
    up to case. *)
Lemma literal_ignore_same p q c :
  ascii_letter p -> ascii_letter q ->
  literal_ignore p c = true -> literal_ignore q c = true ->
  sre_lower_unicode p = sre_lower_unicode q.
Proof.
  intros Hp Hq H1 H2. apply sre_lower_letter in Hp, Hq.
  apply literal_ignore_inv in H1, H2. lia.
Qed.

Lemma letter_like_not_space c : letter_like c -> unicode_isspace c = false.
Proof. unfold letter_like, unicode_isspace. intros H. to_props. lia. Qed.

Lemma name_class_inv c :
  atom_match name_class c = true -> name_code (sre_lower_unicode c) = true.
Proof.
  unfold atom_match, name_class. intros H.
  apply existsb_exists in H. destruct H as (x & Hin & Hx).
  apply N.eqb_eq in Hx. rewrite Hx.
  assert (Hall : forallb name_code
                   (charmap [SetRange 65 90; SetRange 97 122; SetRange 48 57;
                             SetLiteral 95; SetLiteral 45]) = true)
    by (vm_compute; reflexivity).
  rewrite forallb_forall in Hall. apply Hall. exact Hin.
Qed.

Lemma name_class_not_space c :
  atom_match name_class c = true -> unicode_isspace c = false.
Proof.
  intros H. apply name_class_inv in H. unfold name_code, unicode_isspace in *.
  destruct (sre_lower_unicode_inv c eq_refl) as [?|[?|[?|?]]];
    to_props; lia.
Qed.

Lemma space_not_name_class c :
  unicode_isspace c = true -> atom_match name_class c = false.
Proof.
  intros H. destruct (atom_match name_class c) eqn:E; auto.
  apply name_class_not_space in E. congruence.
Qed.

Lemma name_class_not_quote c :
  atom_match name_class c = true -> c <> dquote.
Proof.
  intros H. apply name_class_inv in H. unfold name_code, dquote in *.
  destruct (sre_lower_unicode_inv c eq_refl) as [?|[?|[?|?]]];
    to_props; lia.
Qed.

Lemma space_not_quote c : unicode_isspace c = true -> c <> dquote.
Proof. unfold unicode_isspace, dquote. intros H. to_props. lia. Qed.

Lemma letter_like_not_quote c : letter_like c -> c <> dquote.
Proof. unfold letter_like, dquote. lia. Qed.

Lemma letter_like_not_rparen c : letter_like c -> c <> rparen.
Proof. unfold letter_like, rparen. lia. Qed.

Lemma not_literal_quote c :
  atom_match (NotLiteral dquote) c = true <-> c <> dquote.
Proof.
  unfold atom_match. rewrite negb_true_iff.
  pose proof (@literal_ignore_exact dquote c eq_refl) as H.
  destruct (literal_ignore dquote c).
  - split; [discriminate|]. intros N. exfalso. apply N, H. reflexivity.
  - split; [|reflexivity]. intros _ E. apply H in E. discriminate.
Qed.

End Chars.
Import Chars.

(* ------------------------------------------------------------------ *)
(** ** Matching a declaration *)

Lemma spelled_Forall2 w : forall t,
  spelled w t = true -> Forall2 (fun p c => literal_ignore p c = true) w t.
Proof.
  induction w as [|p w IH]; intros [|c t] H; simpl in H; try discriminate.
  - constructor.
  - apply andb_true_iff in H. destruct H. constructor; auto.
Qed.

Lemma whitespace_Forall w :
  whitespace w = true -> Forall (fun c => atom_match CategorySpace c = true) w.
Proof. intros H. apply Forall_forall. apply forallb_forall. exact H. Qed.

Lemma name_token_Forall w :
  name_token w = true ->
  w <> [] /\ Forall (fun c => atom_match name_class c = true) w.
Proof.
  destruct w as [|c w]; [discriminate|]. intros H. split; [discriminate|].
  apply Forall_forall. apply forallb_forall. exact H.
Qed.

Lemma unquoted_Forall w :
  unquoted w = true ->
  Forall (fun c => atom_match (NotLiteral dquote) c = true) w.
Proof.
  intros H. apply Forall_forall. intros c Hc.
  apply not_literal_quote. unfold unquoted in H.
  rewrite forallb_forall in H. apply H in Hc.
  apply negb_true_iff, N.eqb_neq in Hc. exact Hc.
Qed.

Lemma ascii_letterb_letter p : ascii_letterb p = true -> ascii_letter p.
Proof. unfold ascii_letterb, ascii_letter. intros H. to_props. lia. Qed.

Lemma literal_ignore_other p q c :
  ascii_letterb p = true -> ascii_letterb q = true ->
  N.eqb (sre_lower_unicode p) (sre_lower_unicode q) = false ->
  literal_ignore p c = true -> literal_ignore q c = false.
Proof.
  intros Hp Hq Hpq H. destruct (literal_ignore q c) eqn:E; auto.
  apply N.eqb_neq in Hpq. exfalso. apply Hpq.
  apply (@literal_ignore_same p q c); auto using ascii_letterb_letter.
Qed.

Lemma literal_ignore_not_space p c :
  ascii_letterb p = true -> literal_ignore p c = true ->
  unicode_isspace c = false.
Proof.
  intros Hp H. apply letter_like_not_space.
  apply (@literal_ignore_letter p c); auto using ascii_letterb_letter.
Qed.

Section Steps.
Variable A : Type.
Implicit Types (k : cont A) (g : groups) (s w : text).

Lemma rmatch_star_run a w s g k x :
  Forall (fun c => atom_match a c = true) w -> stops a s ->
  k s g = Some x ->
  rmatch (Star a) (w ++ s) g k = Some x.
Proof. intros. simpl. apply max_repeat_run; auto. Qed.

Lemma rmatch_plus_run a w s g k x :
  w <> [] -> Forall (fun c => atom_match a c = true) w -> stops a s ->
  k s g = Some x ->
  rmatch (Plus a) (w ++ s) g k = Some x.
Proof.
  intros Hne Hw Hs Hk. destruct Hw as [|c w Hc Hw]; [congruence|].
  simpl. rewrite Hc. apply max_repeat_run; auto.
Qed.

Lemma rmatch_literal p c s g k :
  literal_ignore p c = true ->
  rmatch (Atom (Literal p)) (c :: s) g k = k s g.
Proof. intros H. simpl. now rewrite H. Qed.
End Steps.

Ltac literal_step :=
  match goal with
  | H : literal_ignore ?p ?c = true |- context [literal_ignore ?p ?c] =>
      rewrite H
  | H : literal_ignore ?p ?c = true |- context [literal_ignore ?q ?c] =>
      rewrite (@literal_ignore_other p q c eq_refl eq_refl eq_refl H)
  end.

Lemma spelled_cons p w t :
  spelled (p :: w) t = true ->
  exists c t', t = c :: t' /\ literal_ignore p c = true /\ spelled w t' = true.
Proof.
  destruct t as [|c t]; simpl; [discriminate|]. intros H.
  apply andb_true_iff in H. destruct H. eauto.
Qed.

Lemma spelled_nil t : spelled [] t = true -> t = [].
Proof. destruct t; [reflexivity|discriminate]. Qed.

Ltac spell_out H :=
  repeat match type of H with
         | spelled (_ :: _) _ = true =>
             let c := fresh "c" in
             let Hc := fresh "Hc" in
             apply spelled_cons in H; destruct H as (c & ? & -> & Hc & H)
         | spelled [] _ = true => apply spelled_nil in H; subst
         end.

Lemma default_alternatives_accept (A : Type) v s g (k : cont A) x :
  default_token v = true -> k s g = Some x ->
  rmatch default_alternatives (v ++ s) g k = Some x.
Proof.
  intros Hv Hk. unfold default_token in Hv. unfold default_alternatives.
  change (txt "ON") with [79; 78]%N in *.
  change (txt "OFF") with [79; 70; 70]%N in *.
  change (txt "TRUE") with [84; 82; 85; 69]%N in *.
  change (txt "FALSE") with [70; 65; 76; 83; 69]%N in *.
  repeat (apply orb_true_iff in Hv; destruct Hv as [Hv|Hv]);
    spell_out Hv; cbn [rmatch word app atom_match];
    repeat (literal_step; cbn [or_else]); rewrite Hk; reflexivity.
Qed.

(** The first character of a default token is a letter. *)
Lemma default_token_head v :
  default_token v = true ->
  exists c v', v = c :: v' /\ unicode_isspace c = false.
Proof.
  intros Hv. unfold default_token in Hv.
  change (txt "ON") with [79; 78]%N in *.
  change (txt "OFF") with [79; 70; 70]%N in *.
  change (txt "TRUE") with [84; 82; 85; 69]%N in *.
  change (txt "FALSE") with [70; 65; 76; 83; 69]%N in *.
  repeat (apply orb_true_iff in Hv; destruct Hv as [Hv|Hv]);
    (apply spelled_cons in Hv; destruct Hv as (c & v' & -> & Hc & _);
     exists c, v'; split; [reflexivity|];
     eapply literal_ignore_not_space; [|exact Hc]; reflexivity).
Qed.

Lemma default_alternatives_reject_rparen (A : Type) s g (k : cont A) :
  rmatch default_alternatives (rparen :: s) g k = None.
Proof. reflexivity. Qed.

Section MoreSteps.
Variable A : Type.
Implicit Types (k : cont A) (g : groups) (s w : text).

Lemma rmatch_cat r1 r2 s g k :
  rmatch (Cat r1 r2) s g k = rmatch r1 s g (fun s' g' => rmatch r2 s' g' k).
Proof. reflexivity. Qed.

Lemma rmatch_group n r s g k :
  rmatch (Group n r) s g k
  = rmatch r s g
      (fun s' g' => k s' ((n, firstn (length s - length s') s) :: g')).
Proof. reflexivity. Qed.

Lemma rmatch_optional_taken r s g k x :
  rmatch r s g k = Some x -> rmatch (Optional r) s g k = Some x.
Proof. intros H. simpl. now rewrite H. Qed.

Lemma rmatch_optional_skipped r s g k :
  rmatch r s g k = None -> rmatch (Optional r) s g k = k s g.
Proof. intros H. simpl. now rewrite H. Qed.
End MoreSteps.

Lemma source_text_app d rest :
  source_text d ++ rest
  = d_keyword d ++ d_after_keyword d ++ lparen :: d_after_open d
      ++ d_name d ++ d_after_name d
      ++ dquote :: d_description d ++ dquote :: d_after_description d
      ++ match d_default d with Some v => v | None => [] end
      ++ d_before_close d ++ rparen :: rest.
Proof.
  unfold source_text. repeat (rewrite <- app_assoc; simpl). reflexivity.
Qed.

Lemma well_formed_parts d :
  well_formed d = true ->
  spelled (txt "option") (d_keyword d) = true
  /\ whitespace (d_after_keyword d) = true
  /\ whitespace (d_after_open d) = true
  /\ name_token (d_name d) = true
  /\ whitespace (d_after_name d) = true
  /\ unquoted (d_description d) = true
  /\ whitespace (d_after_description d) = true
  /\ whitespace (d_before_close d) = true.
Proof.
  unfold well_formed. intros H.
  repeat (apply andb_true_iff in H; destruct H as [H ?]). auto 10.
Qed.

(** At the head of a well-formed declaration whose name and description
    are separated by white space, and whose trailing token (if any) is a
    default token, the pattern matches the whole declaration with the
    written name, description and default as its groups. *)
Lemma match_declaration d rest :
  well_formed d = true -> d_after_name d <> [] -> default_written d = true ->
  match_here option_pattern (source_text d ++ rest)
  = Some (MatchObject (groups_of_declaration d) rest).
Proof.
  intros Hwf Hsep Hdef. apply well_formed_parts in Hwf.
  rewrite source_text_app. unfold groups_of_declaration, default_written in *.
  destruct d as [kw w1 w2 nm w3 desc w4 dv w5]; cbn [d_keyword d_after_keyword
    d_after_open d_name d_after_name d_description d_after_description
    d_default d_before_close] in *.
  destruct Hwf as (Hkw & H1 & H2 & Hnm & H3 & Hdesc & H4 & H5).
  apply spelled_Forall2 in Hkw. apply whitespace_Forall in H1, H2, H3, H4, H5.
  apply name_token_Forall in Hnm. destruct Hnm as [Hnm_ne Hnm].
  apply unquoted_Forall in Hdesc.
  unfold match_here, option_pattern.
  rewrite rmatch_cat, rmatch_word by exact Hkw.
  rewrite rmatch_cat. apply rmatch_star_run; [exact H1|reflexivity|].
  rewrite rmatch_cat, rmatch_literal by reflexivity.
  rewrite rmatch_cat. apply rmatch_star_run; [exact H2| |].
  { destruct Hnm as [|c nm Hc Hnm]; [congruence|].
    simpl. now apply name_class_not_space. }
  rewrite rmatch_cat, rmatch_group.
  apply rmatch_plus_run; [exact Hnm_ne|exact Hnm| |].
  { destruct H3 as [|c w3 Hc H3]; [congruence|].
    simpl. now apply space_not_name_class. }
  rewrite firstn_length_app.
  rewrite rmatch_cat. apply rmatch_plus_run; [exact Hsep|exact H3|reflexivity|].
  rewrite rmatch_cat, rmatch_literal by reflexivity.
  rewrite rmatch_cat, rmatch_group.
  apply rmatch_star_run; [exact Hdesc|reflexivity|].
  rewrite firstn_length_app.
  rewrite rmatch_cat, rmatch_literal by reflexivity.
  rewrite rmatch_cat.
  destruct dv as [v|].
  - apply rmatch_star_run; [exact H4| |].
    { destruct (default_token_head _ Hdef) as (c & v' & -> & Hc). exact Hc. }
    rewrite rmatch_cat. apply rmatch_optional_taken. rewrite rmatch_group.
    apply default_alternatives_accept; [exact Hdef|].
    rewrite firstn_length_app.
    rewrite rmatch_cat. apply rmatch_star_run; [exact H5|reflexivity|].
    rewrite rmatch_literal by reflexivity. reflexivity.
  - cbn [app]. rewrite app_assoc.
    apply rmatch_star_run; [apply Forall_app; split; assumption|reflexivity|].
    rewrite rmatch_cat, rmatch_optional_skipped
      by (rewrite rmatch_group; apply default_alternatives_reject_rparen).
    rewrite rmatch_cat.
    apply (@rmatch_star_run _ CategorySpace [] (rparen :: rest));
      [constructor|reflexivity|].
    rewrite rmatch_literal by reflexivity. reflexivity.
Qed.

(* ------------------------------------------------------------------ *)
(** ** What the option pattern accepts *)

Lemma lang_word ps : forall w, lang (word ps) w -> spelled ps w = true.
Proof.
  induction ps as [|p ps IH]; simpl; intros w H.
  - subst. reflexivity.
  - destruct H as (w1 & w2 & -> & (c & -> & Hc) & H2). simpl.
    rewrite Hc. apply IH. exact H2.
Qed.

Lemma lang_default_alternatives v :
  lang default_alternatives v -> default_token v = true.
Proof.
  unfold default_alternatives, default_token. cbn [lang].
  intros [H|[H|[H|H]]]; apply lang_word in H; rewrite H;
    rewrite ?orb_true_r; reflexivity.
Qed.

Lemma Forall_whitespace w :
  Forall (fun c => atom_match CategorySpace c = true) w -> whitespace w = true.
Proof. intros H. apply forallb_forall. apply Forall_forall. exact H. Qed.

Lemma Forall_unquoted w :
  Forall (fun c => atom_match (NotLiteral dquote) c = true) w ->
  unquoted w = true.
Proof.
  intros H. apply forallb_forall. intros c Hc.
  rewrite Forall_forall in H. apply H in Hc. apply not_literal_quote in Hc.
  apply negb_true_iff, N.eqb_neq. exact Hc.
Qed.

Lemma Forall_name_token w :
  w <> [] -> Forall (fun c => atom_match name_class c = true) w ->
  name_token w = true.
Proof.
  intros Hne H. destruct w as [|c w]; [congruence|].
  apply forallb_forall. apply Forall_forall. exact H.
Qed.

(** Every word of the pattern is the text of a well-formed declaration with
    white space after its name and a default token or none. *)
Lemma option_pattern_lang w :
  lang option_pattern w ->
  exists d, w = source_text d /\ well_formed d = true
            /\ d_after_name d <> [] /\ default_written d = true.
Proof.
  unfold option_pattern. cbn [lang].
  intros (kw & ? & -> & Hkw & w1 & ? & -> & H1 & ? & ? & -> & (c1 & -> & Hc1)
          & w2 & ? & -> & H2 & nm & ? & -> & (Hnm_ne & Hnm)
          & w3 & ? & -> & (H3_ne & H3) & ? & ? & -> & (c2 & -> & Hc2)
          & desc & ? & -> & Hdesc & ? & ? & -> & (c3 & -> & Hc3)
          & w4 & ? & -> & H4 & v & ? & -> & Hv & w5 & ? & -> & H5
          & c4 & -> & Hc4).
  apply lang_word in Hkw.
  apply (@literal_ignore_exact lparen c1 eq_refl) in Hc1.
  apply (@literal_ignore_exact dquote c2 eq_refl) in Hc2.
  apply (@literal_ignore_exact dquote c3 eq_refl) in Hc3.
  apply (@literal_ignore_exact rparen c4 eq_refl) in Hc4. subst.
  apply Forall_whitespace in H1, H2, H3, H4, H5.
  apply Forall_unquoted in Hdesc.
  apply Forall_name_token in Hnm; [|exact Hnm_ne].
  assert (Hwf : forall dv,
             well_formed (Declaration kw w1 w2 nm w3 desc w4 dv w5) = true).
  { intros dv. unfold well_formed.
    cbn [d_keyword d_after_keyword d_after_open d_name d_after_name
         d_description d_after_description d_before_close].
    rewrite Hkw, H1, H2, Hnm, H3, Hdesc, H4, H5. reflexivity. }
  destruct Hv as [->|Hv].
  - exists (Declaration kw w1 w2 nm w3 desc w4 None w5).
    repeat split; auto.
  - apply lang_default_alternatives in Hv.
    exists (Declaration kw w1 w2 nm w3 desc w4 (Some v) w5).
    repeat split; auto.
Qed.

Lemma option_pattern_nonempty w : lang option_pattern w -> w <> [].
Proof.
  intros H. apply option_pattern_lang in H.
  destruct H as (d & -> & Hwf & _). apply well_formed_parts in Hwf.
  destruct Hwf as (Hkw & _). unfold source_text.
  destruct (d_keyword d); [discriminate Hkw|discriminate].
Qed.

(* ------------------------------------------------------------------ *)
(** ** The extractor on declarations *)

Lemma options_of_content_map content :
  options_of_content content
  = map entry_of_match (finditer option_pattern content).
Proof. unfold options_of_content. apply fold_left_snoc_map. Qed.

Lemma options_of_empty : options_of_content [] = [].
Proof.
  rewrite options_of_content_map.
  now rewrite (@finditer_nil _ option_pattern_nonempty).
Qed.

Lemma default_token_nonempty v : default_token v = true -> v <> [].
Proof.
  intros H. destruct (default_token_head _ H) as (c & v' & -> & _).
  discriminate.
Qed.

Lemma entry_of_declaration_match d rest :
  default_written d = true ->
  entry_of_match (MatchObject (groups_of_declaration d) rest)
  = entry_of_declaration d.
Proof.
  unfold entry_of_match, entry_of_declaration, groups_of_declaration,
    default_written, group.
  destruct (d_default d) as [v|]; simpl; intros H; [|reflexivity].
  apply default_token_nonempty in H. destruct v; [congruence|reflexivity].
Qed.

(** A well-formed declaration at the head of the content gives its entry,
    and the scan goes on after its closing parenthesis. *)
Lemma options_of_declaration d rest :
  well_formed d = true -> d_after_name d <> [] -> default_written d = true ->
  options_of_content (source_text d ++ rest)
  = entry_of_declaration d :: options_of_content rest.
Proof.
  intros Hwf Hsep Hdef. rewrite !options_of_content_map.
  rewrite (@finditer_match _ option_pattern_nonempty _ _
             (match_declaration d rest Hwf Hsep Hdef)).
  simpl. now rewrite entry_of_declaration_match.
Qed.

(* ------------------------------------------------------------------ *)
(** ** Quotes delimit a declaration *)

Lemma quotes_app a b : quotes (a ++ b) = quotes a + quotes b.
Proof. apply count_occ_app. Qed.

Lemma quotes_cons_quote t : quotes (dquote :: t) = S (quotes t).
Proof. unfold quotes. now rewrite count_occ_cons_eq. Qed.

Lemma quote_free_quotes t : quote_free t <-> quotes t = 0.
Proof.
  unfold quote_free, quotes. rewrite <- count_occ_not_In, Forall_forall.
  split.
  - intros H Hin. now apply (H dquote).
  - intros H c Hc ->. contradiction.
Qed.

Lemma source_text_split d :
  source_text d
  = before_quote d ++ dquote :: d_description d ++ dquote :: after_quote d.
Proof.
  unfold source_text, before_quote, after_quote.
  repeat (rewrite <- app_assoc; simpl). reflexivity.
Qed.

Lemma spelled_letter_like ps : forall t,
  forallb ascii_letterb ps = true -> spelled ps t = true ->
  Forall letter_like t.
Proof.
  induction ps as [|p ps IH]; intros t Hps H.
  - apply spelled_nil in H. subst. constructor.
  - apply spelled_cons in H. destruct H as (c & t' & -> & Hc & H).
    simpl in Hps. apply andb_true_iff in Hps. destruct Hps as [Hp Hps].
    constructor; [|now apply IH].
    apply (@literal_ignore_letter p c); auto using ascii_letterb_letter.
Qed.

Lemma default_token_letter_like v :
  default_token v = true -> Forall letter_like v.
Proof.
  unfold default_token. intros H.
  repeat (apply orb_true_iff in H; destruct H as [H|H]);
    (eapply spelled_letter_like; [|exact H]; reflexivity).
Qed.

Lemma whitespace_quote_free w : whitespace w = true -> quote_free w.
Proof.
  intros H. apply whitespace_Forall in H.
  eapply Forall_impl; [|exact H]. intros c Hc. now apply space_not_quote.
Qed.

Lemma well_formed_quote_free d :
  well_formed d = true ->
  quote_free (before_quote d) /\ quote_free (d_description d)
  /\ quote_free (d_after_description d) /\ quote_free (d_before_close d).
Proof.
  intros H. apply well_formed_parts in H.
  destruct H as (Hkw & H1 & H2 & Hnm & H3 & Hdesc & H4 & H5).
  repeat split; auto using whitespace_quote_free.
  - unfold before_quote, quote_free. rewrite !Forall_app. repeat split.
    + eapply Forall_impl; [|eapply spelled_letter_like; [|exact Hkw]].
      * intros c. apply letter_like_not_quote.
      * reflexivity.
    + now apply whitespace_quote_free.
    + constructor; [discriminate|]. rewrite !Forall_app. repeat split.
      * now apply whitespace_quote_free.
      * apply name_token_Forall in Hnm. destruct Hnm as [_ Hnm].
        eapply Forall_impl; [|exact Hnm]. intros c. apply name_class_not_quote.
      * now apply whitespace_quote_free.
  - apply unquoted_Forall in Hdesc. eapply Forall_impl; [|exact Hdesc].
    intros c. apply not_literal_quote.
Qed.

(** A text with exactly two quotes holds a two-quote span in one place. *)
Lemma two_quotes a b c a' b' c' pre :
  quote_free a -> quote_free b -> quote_free c ->
  quote_free a' -> quote_free b' ->
  a ++ dquote :: b ++ dquote :: c
  = pre ++ a' ++ dquote :: b' ++ dquote :: c' ->
  c = c'.
Proof.
  intros Ha Hb Hc Ha' Hb' E.
  assert (Hpre : quote_free pre).
  { apply quote_free_quotes. apply (f_equal quotes) in E.
    apply quote_free_quotes in Ha, Hb, Hc, Ha', Hb'.
    repeat (rewrite ?quotes_app, ?quotes_cons_quote in E). lia. }
  rewrite app_assoc in E.
  apply (@first_outside_unique (fun x => x <> dquote)) in E;
    [| assumption | intros H; now apply H
     | apply Forall_app; now split | intros H; now apply H].
  destruct E as (_ & _ & E).
  apply (@first_outside_unique (fun x => x <> dquote)) in E;
    [| assumption | intros H; now apply H
     | assumption | intros H; now apply H].
  now destruct E as (_ & _ & E).
Qed.

(* ------------------------------------------------------------------ *)
(** ** Trailing tokens *)

Lemma bare_token_chars tok :
  bare_token tok = true ->
  tok <> [] /\ Forall token_char tok /\ quote_free tok.
Proof.
  destruct tok as [|c tok]; [discriminate|]. intros H.
  split; [discriminate|]. unfold bare_token in H.
  rewrite forallb_forall in H.
  split; apply Forall_forall; intros x Hx; apply H in Hx;
    apply andb_true_iff in Hx; destruct Hx as [Hx Hq];
    apply andb_true_iff in Hx; destruct Hx as [Hs Hr];
    apply negb_true_iff in Hs, Hr, Hq; apply N.eqb_neq in Hr, Hq.
  - split; assumption.
  - assumption.
Qed.

Lemma default_token_chars v : default_token v = true -> Forall token_char v.
Proof.
  intros H. apply default_token_letter_like in H.
  eapply Forall_impl; [|exact H]. intros c Hc. split.
  - now apply letter_like_not_space.
  - now apply letter_like_not_rparen.
Qed.

(** White space and then a closing parenthesis start with a character that
    no token holds. *)
Lemma close_head w rest :
  whitespace w = true ->
  exists x r, w ++ rparen :: rest = x :: r /\ ~ token_char x.
Proof.
  intros H. destruct w as [|c w]; simpl.
  - exists rparen, rest. split; [reflexivity|]. intros [_ Hx]. now apply Hx.
  - exists c, (w ++ rparen :: rest). split; [reflexivity|].
    simpl in H. apply andb_true_iff in H. destruct H as [Hc _].
    intros [Hx _]. congruence.
Qed.

(** After the closing quote, a token that is no default token cannot be
    read as the tail of a match. *)
Lemma tail_mismatch w4 tok w5 d' rest :
  whitespace w4 = true -> whitespace w5 = true ->
  bare_token tok = true -> default_token tok = false ->
  well_formed d' = true -> default_written d' = true ->
  w4 ++ tok ++ w5 ++ [rparen] <> after_quote d' ++ rest.
Proof.
  intros H4 H5 Htok Hnot Hwf Hdef E.
  apply well_formed_parts in Hwf.
  destruct Hwf as (_ & _ & _ & _ & _ & _ & H4' & H5').
  apply bare_token_chars in Htok. destruct Htok as (Hne & Htok & _).
  unfold after_quote, default_written in *.
  apply whitespace_Forall in H4, H4'. simpl in H4, H4'.
  destruct tok as [|t0 tok']; [congruence|].
  pose proof (Forall_inv Htok) as [Ht0s Ht0r].
  destruct (d_default d') as [v|].
  - destruct (default_token_head _ Hdef) as (c & v' & -> & Hc).
    repeat (rewrite <- app_assoc in E; simpl in E).
    apply (@first_outside_unique (fun x => unicode_isspace x = true)) in E;
      [| assumption | congruence | assumption | congruence].
    destruct E as (_ & -> & E).
    assert (E' : (c :: tok') ++ w5 ++ [rparen]
                 = (c :: v') ++ d_before_close d' ++ rparen :: rest)
      by (simpl; now rewrite E).
    destruct (@close_head w5 [] H5) as (x & r & Ex & Hx).
    destruct (@close_head _ rest H5') as (y & r' & Ey & Hy).
    rewrite Ex, Ey in E'.
    apply (@first_outside_unique token_char) in E';
      [| assumption | assumption | now apply default_token_chars | assumption].
    destruct E' as (Etok & _). rewrite Etok in Hnot. congruence.
  - repeat (rewrite <- app_assoc in E; simpl in E).
    rewrite (app_assoc (d_after_description d')) in E.
    apply whitespace_Forall in H5'. simpl in H5'.
    apply (@first_outside_unique (fun x => unicode_isspace x = true)) in E;
      [| assumption | congruence
       | apply Forall_app; now split | discriminate].
    destruct E as (_ & -> & _). now apply Ht0r.
Qed.

(** A declaration whose trailing token is no default token gives no match
    at any position of its text. *)
Lemma no_match_in_declaration d tok pre t :
  well_formed d = true -> d_default d = Some tok ->
  bare_token tok = true -> default_token tok = false ->
  source_text d = pre ++ t ->
  match_here option_pattern t = None.
Proof.
  intros Hwf Hd Htok Hnot E.
  destruct (match_here option_pattern t) as [m|] eqn:M; [exfalso|reflexivity].
  apply match_here_sound in M. destruct M as (w & -> & L).
  apply option_pattern_lang in L.
  destruct L as (d' & -> & Hwf' & _ & Hdef').
  rewrite (source_text_split d) in E.
  rewrite (source_text_split d') in E.
  repeat (rewrite <- app_assoc in E; cbn [app] in E).
  pose proof (well_formed_quote_free d Hwf) as (Qa & Qb & Q4 & Q5).
  pose proof (well_formed_quote_free d' Hwf') as (Qa' & Qb' & _).
  pose proof (bare_token_chars _ Htok) as (_ & _ & Qtok).
  apply two_quotes in E; auto.
  - unfold after_quote at 1 in E. rewrite Hd in E.
    pose proof (well_formed_parts d Hwf) as (_ & _ & _ & _ & _ & _ & H4 & H5).
    now apply tail_mismatch in E.
  - unfold after_quote, quote_free. rewrite Hd, !Forall_app.
    repeat split; auto. constructor; [discriminate|constructor].
Qed.

(* ------------------------------------------------------------------ *)
(** ** Physical lines *)

Lemma split_on_nonempty c s : split_on c s <> [].
Proof.
  destruct s as [|x s]; simpl; [discriminate|].
  destruct (N.eqb x c); [discriminate|].
  destruct (split_on c s); discriminate.
Qed.

Lemma physical_lines_app a b :
  physical_lines (a ++ newline :: b) = physical_lines a + physical_lines b.
Proof.
  unfold physical_lines. induction a as [|x a IH]; simpl.
  - reflexivity.
  - destruct (N.eqb x newline); simpl; [now rewrite IH|].
    pose proof (split_on_nonempty newline (a ++ newline :: b)) as H1.
    pose proof (split_on_nonempty newline a) as H2.
    destruct (split_on newline (a ++ newline :: b)); [congruence|].
    destruct (split_on newline a); [congruence|]. simpl in *. exact IH.
Qed.

Lemma physical_lines_pos t : 1 <= physical_lines t.
Proof.
  unfold physical_lines. pose proof (split_on_nonempty newline t).
  destruct (split_on newline t); [congruence|simpl; lia].
Qed.

Lemma physical_lines_newline t : In newline t -> 2 <= physical_lines t.
Proof.
  intros H. apply in_split in H. destruct H as (a & b & ->).
  rewrite physical_lines_app.
  pose proof (physical_lines_pos a). pose proof (physical_lines_pos b). lia.
Qed.

(* ------------------------------------------------------------------ *)
(** ** The table *)

Lemma generate_doxygen_table_rows e options :
  generate_doxygen_table (e :: options)
  = join [newline]
      (table_heading ++ install_prefix_row :: map table_row (e :: options)).
Proof.
  unfold generate_doxygen_table. rewrite fold_left_snoc_map.
  now rewrite <- app_assoc.
Qed.

(* ------------------------------------------------------------------ *)
(** ** The groups of a match *)

Lemma group_lookup_In g n t :
  In (n, t) g -> exists t', group_lookup g n = Some t'.
Proof.
  induction g as [|[m u] g IH]; simpl; [tauto|]. intros [E|Hin].
  - inversion E; subst. rewrite Nat.eqb_refl. eauto.
  - destruct (Nat.eqb m n); eauto.
Qed.

Ltac sound_step H :=
  rewrite rmatch_cat in H; apply rmatch_sound in H;
  destruct H as (? & ? & ? & -> & _ & [? ->] & H); cbv beta in H.

Ltac sound_group_step H :=
  rewrite rmatch_cat, rmatch_group in H; apply rmatch_sound in H;
  destruct H as (? & ? & ? & -> & _ & [? ->] & H); cbv beta in H.

(** The first and the second group take part in every match of the option
    pattern: [match.group(1)] and [match.group(2)] are never [None]. *)
Lemma match_groups_present s m :
  match_here option_pattern s = Some m ->
  exists n d, group m 1 = Some n /\ group m 2 = Some d.
Proof.
  unfold match_here, option_pattern. intros H.
  do 4 sound_step H. sound_group_step H. do 2 sound_step H.
  sound_group_step H. apply rmatch_sound in H.
  destruct H as (? & ? & ? & -> & _ & [? ->] & H). inversion H; subst.
  unfold group. cbn [m_groups].
  match goal with
  | |- context [group_lookup ?g 1] =>
      destruct (@group_lookup_In g 1 _
                  ltac:(rewrite ?in_app_iff; simpl; rewrite ?in_app_iff;
                        simpl; eauto 10)) as [n Hn];
      destruct (@group_lookup_In g 2 _
                  ltac:(rewrite ?in_app_iff; simpl; eauto 10)) as [d Hd]
  end.
  eauto.
Qed.

Lemma finditer_from_In p m : forall fuel s,
  In m (finditer_from fuel p s) -> exists t, match_here p t = Some m.
Proof.
  induction fuel as [|fuel IH]; intros s; simpl; [tauto|].
  destruct (match_here p s) as [m'|] eqn:E.
  - intros [<-|Hin]; eauto.
  - destruct s as [|c s]; simpl; [tauto|]. apply IH.
Qed.

Lemma entry_of_match_groups s m :
  match_here option_pattern s = Some m ->
  group m 1 = Some (name (entry_of_match m))
  /\ group m 2 = Some (description (entry_of_match m)).
Proof.
  intros H. apply match_groups_present in H.
  destruct H as (n & d & Hn & Hd).
  unfold entry_of_match. rewrite Hn, Hd. simpl. auto.
Qed.

(* ------------------------------------------------------------------ *)
(** ** Case variants *)

(** Characters that agree up to ASCII case are equal for the matcher. *)
Lemma caseless_literal p c :
  ascii_lower p = ascii_lower c -> literal_ignore p c = true.
Proof.
  unfold ascii_lower, literal_ignore, ignorecase_fixes, sre_lower_unicode.
  split_ifs; cbn [existsb]; to_props; lia.
Qed.

Lemma caseless_spelled w : forall t,
  caseless_eq w t = true -> spelled w t = true.
Proof.
  induction w as [|p w IH]; intros [|c t] H; simpl in H; try discriminate.
  - reflexivity.
  - apply andb_true_iff in H. destruct H as [Hc H]. apply N.eqb_eq in Hc.
    simpl. now rewrite (@caseless_literal p c Hc), IH.
Qed.

Lemma caseless_default_token word v :
  In word default_words -> caseless_eq word v = true ->
  default_token v = true.
Proof.
  unfold default_words, default_token.
  intros [<-|[<-|[<-|[<-|[]]]]] H; apply caseless_spelled in H; rewrite H;
    rewrite ?orb_true_r; reflexivity.
Qed.

Lemma layout_well_formed d :
  caseless_eq (txt "option") (d_keyword d) = true -> layout d = true ->
  well_formed d = true.
Proof.
  unfold layout, well_formed. intros Hkw H. apply caseless_spelled in Hkw.
  repeat (apply andb_true_iff in H; destruct H as [H ?]).
  repeat (apply andb_true_iff; split); assumption.
Qed.

(* ------------------------------------------------------------------ *)
(** ** The claims *)

Lemma separated_nonempty d : 0 < length (d_after_name d) -> d_after_name d <> [].
Proof. destruct (d_after_name d); simpl; [lia|discriminate]. Qed.

(** C1, as amended: for every input text with at least one match, the table
    consists of the heading, the installation-prefix row first among the data
    rows, and then exactly one row per match, in match order, each made of the
    name, description and default of the entry built from that match. *)
Theorem table_has_one_row_per_match content :
  0 < length (finditer option_pattern content) ->
  one_row_per_match content.
Proof.
  intros Hlen. unfold one_row_per_match.
  exists (map table_row (options_of_content content)).
  rewrite options_of_content_map. split; [|split].
  - destruct (finditer option_pattern content) as [|m ms];
      [simpl in Hlen; lia|].
    apply generate_doxygen_table_rows.
  - now rewrite !length_map.
  - intros i m Hm. cbv zeta.
    pose proof (nth_error_In _ _ Hm) as Hin.
    apply finditer_from_In in Hin. destruct Hin as [t Ht].
    destruct (entry_of_match_groups _ Ht) as [Hname Hdesc].
    split; [exact Hname|]. split; [exact Hdesc|]. split; [|split].
    + intros Hnone. unfold entry_of_match. now rewrite Hnone.
    + now apply map_nth_error.
    + rewrite map_map.
      now apply (map_nth_error (fun x => table_row (entry_of_match x))).
Qed.

Lemma table_has_one_row_per_match_witness :
  0 < length (finditer option_pattern (source_text sample_mixed_case))
  /\ one_row_per_match (source_text sample_mixed_case).
Proof.
  split; [vm_compute; lia|].
  apply table_has_one_row_per_match. vm_compute. lia.
Defined.

(** C1, as stated, fails on a text without any match: the output is the
    empty-result sentence, which has no installation-prefix row. *)
Lemma no_rows_without_match : ~ one_row_per_match (txt "project(demo)").
Proof.
  intros (rows & H & _).
  assert (E : options_of_content (txt "project(demo)") = [])
    by (vm_compute; reflexivity).
  rewrite E in H. vm_compute in H. discriminate H.
Qed.

(** C2, as amended: a well-formed declaration with at least one white-space
    character between its name and the opening quote, and any amount of white
    space (none included) between its other tokens, gives exactly its entry;
    the keyword and the default token are read without regard to case. *)
Theorem separated_declaration_yields_entry d :
  well_formed d = true -> 0 < length (d_after_name d) ->
  default_written d = true ->
  yields_entry d.
Proof.
  intros Hwf Hsep Hdef. unfold yields_entry.
  rewrite <- (app_nil_r (source_text d)).
  rewrite options_of_declaration by auto using separated_nonempty.
  now rewrite options_of_empty.
Qed.

Lemma separated_declaration_yields_entry_witness :
  well_formed sample_no_default = true
  /\ 0 < length (d_after_name sample_no_default)
  /\ default_written sample_no_default = true
  /\ yields_entry sample_no_default.
Proof.
  split; [reflexivity|]. split; [simpl; lia|]. split; [reflexivity|].
  apply separated_declaration_yields_entry;
    [reflexivity|simpl; lia|reflexivity].
Defined.

(** C2, as stated, fails: with no white space between the name and the
    opening quote the declaration gives no entry. *)
Lemma unseparated_declaration_yields_nothing :
  well_formed sample_unseparated = true
  /\ default_written sample_unseparated = true
  /\ options_of_content (source_text sample_unseparated) = []
  /\ ~ yields_entry sample_unseparated.
Proof.
  assert (E : options_of_content (source_text sample_unseparated) = [])
    by (vm_compute; reflexivity).
  split; [reflexivity|]. split; [reflexivity|]. split; [exact E|].
  unfold yields_entry. rewrite E. discriminate.
Qed.

(** C3: for the empty sequence the formatter returns the sentence
    [No CMake options found.] and nothing else: a single line, without the
    heading and without the installation-prefix row. *)
Theorem empty_sequence_message :
  generate_doxygen_table [] = txt "No CMake options found."
  /\ physical_lines (generate_doxygen_table []) = 1.
Proof. split; reflexivity. Qed.

(** C4: a matched declaration without a default token gives an entry whose
    default is the fallback [OFF]. *)
Theorem omitted_default_is_off d :
  well_formed d = true -> 0 < length (d_after_name d) ->
  d_default d = None ->
  options_of_content (source_text d)
  = [OptionEntry (d_name d) (d_description d) (txt "OFF")].
Proof.
  intros Hwf Hsep Hnone.
  rewrite <- (app_nil_r (source_text d)).
  rewrite options_of_declaration;
    [ | assumption | now apply separated_nonempty
      | unfold default_written; now rewrite Hnone ].
  rewrite options_of_empty. unfold entry_of_declaration. now rewrite Hnone.
Qed.

Lemma omitted_default_is_off_witness :
  well_formed sample_no_default = true
  /\ 0 < length (d_after_name sample_no_default)
  /\ d_default sample_no_default = None
  /\ options_of_content (source_text sample_no_default)
     = [OptionEntry (txt "ENABLE_DOCS") (txt "Build docs") (txt "OFF")].
Proof.
  split; [reflexivity|]. split; [simpl; lia|]. split; [reflexivity|].
  apply (omitted_default_is_off sample_no_default);
    [reflexivity|simpl; lia|reflexivity].
Defined.

(** C5: the keyword [option] and the default tokens ON, OFF, TRUE and FALSE
    are matched without regard to case, and a default token that is present
    is stored in the entry exactly as written in the source text. *)
Theorem default_stored_as_written d word v :
  caseless_eq (txt "option") (d_keyword d) = true ->
  layout d = true -> 0 < length (d_after_name d) ->
  d_default d = Some v ->
  In word default_words -> caseless_eq word v = true ->
  options_of_content (source_text d)
  = [OptionEntry (d_name d) (d_description d) v].
Proof.
  intros Hkw Hlay Hsep Hsome Hword Hv.
  pose proof (@layout_well_formed d Hkw Hlay) as Hwf.
  pose proof (@caseless_default_token word v Hword Hv) as Hdef.
  rewrite <- (app_nil_r (source_text d)).
  rewrite options_of_declaration;
    [ | assumption | now apply separated_nonempty
      | unfold default_written; now rewrite Hsome ].
  rewrite options_of_empty. unfold entry_of_declaration. now rewrite Hsome.
Qed.

Lemma default_stored_as_written_witness :
  caseless_eq (txt "option") (d_keyword sample_mixed_case) = true
  /\ layout sample_mixed_case = true
  /\ 0 < length (d_after_name sample_mixed_case)
  /\ d_default sample_mixed_case = Some (txt "on")
  /\ In (txt "ON") default_words
  /\ caseless_eq (txt "ON") (txt "on") = true
  /\ options_of_content (source_text sample_mixed_case)
     = [OptionEntry (txt "FOO") (txt "bar") (txt "on")].
Proof.
  split; [reflexivity|]. split; [reflexivity|]. split; [simpl; lia|].
  split; [reflexivity|]. split; [simpl; tauto|]. split; [reflexivity|].
  apply (@default_stored_as_written sample_mixed_case (txt "ON") (txt "on"));
    [reflexivity|reflexivity|simpl; lia|reflexivity|simpl; tauto|reflexivity].
Defined.

(** C6: when the path names a file but reading it raises, the extractor
    writes its diagnostic to standard error and returns the empty list; the
    program prints [No CMake options found.] and exits with status 0. *)
Theorem read_failure_is_absorbed argv fs e :
  isfile fs (cmake_path_of argv) = true ->
  open_read fs (cmake_path_of argv) = ReadRaises e ->
  let diagnostic :=
    txt "Error reading file " ++ cmake_path_of argv ++ txt ": " ++ e
        ++ [newline] in
  parse_cmake_options fs (cmake_path_of argv) (Channels [] [])
  = (Return [], Channels [] diagnostic)
  /\ run argv fs
     = Outcome (txt "No CMake options found." ++ [newline]) diagnostic 0.
Proof.
  intros Hfile Hread. cbv zeta. unfold run, main, parse_cmake_options.
  rewrite Hfile, Hread. unfold bind, print_stderr, print, ret. simpl.
  rewrite <- !app_assoc. split; reflexivity.
Qed.

Lemma read_failure_is_absorbed_witness :
  let fs := sample_filesystem (ReadRaises (txt "Permission denied")) in
  let argv := [txt "doxygenize_cmake_options.py"; txt "CMakeLists.txt"] in
  isfile fs (cmake_path_of argv) = true
  /\ open_read fs (cmake_path_of argv) = ReadRaises (txt "Permission denied")
  /\ run argv fs
     = Outcome (txt "No CMake options found." ++ [newline])
               (txt "Error reading file CMakeLists.txt: Permission denied"
                    ++ [newline]) 0.
Proof.
  cbv zeta. split; [reflexivity|]. split; [reflexivity|].
  apply (read_failure_is_absorbed
           [txt "doxygenize_cmake_options.py"; txt "CMakeLists.txt"]
           (sample_filesystem (ReadRaises (txt "Permission denied"))));
    reflexivity.
Defined.

(** C7: when the resolved path does not name an existing regular file, the
    program writes one diagnostic line to standard error, nothing to standard
    output, and exits with status 1. *)
Theorem missing_file_exits_1 argv fs :
  isfile fs (cmake_path_of argv) = false ->
  run argv fs
  = Outcome []
            (txt "Error: File '" ++ cmake_path_of argv ++ txt "' not found."
                 ++ [newline])
            1.
Proof.
  intros Hfile. unfold run, main. rewrite Hfile.
  unfold bind, print_stderr, sys_exit. simpl.
  rewrite <- !app_assoc. reflexivity.
Qed.

Lemma missing_file_exits_1_witness :
  let argv := [txt "doxygenize_cmake_options.py"; txt "missing.txt"] in
  isfile no_filesystem (cmake_path_of argv) = false
  /\ run argv no_filesystem
     = Outcome [] (txt "Error: File 'missing.txt' not found." ++ [newline]) 1.
Proof.
  cbv zeta. split; [reflexivity|].
  apply (missing_file_exits_1
           [txt "doxygenize_cmake_options.py"; txt "missing.txt"]
           no_filesystem).
  reflexivity.
Defined.

(** A run on a file that is read: the table is printed, unless standard
    output cannot encode it. *)
Lemma run_readable argv fs content :
  isfile fs (cmake_path_of argv) = true ->
  open_read fs (cmake_path_of argv) = ReadOk content ->
  let doc := generate_doxygen_table (options_of_content content) in
  run argv fs
  = if encodable_text fs doc
    then Outcome (doc ++ [newline]) [] 0
    else Outcome []
           (traceback_head ++ newline
              :: traceback_body fs (UnicodeEncodeError doc))
           1.
Proof.
  intros Hfile Hread. cbv zeta. unfold run, main, parse_cmake_options.
  rewrite Hfile, Hread. unfold bind, print, ret. cbn [negb].
  destruct (encodable_text fs
              (generate_doxygen_table (options_of_content content)));
    reflexivity.
Qed.





(** C9: a declaration whose trailing token is not one of ON, OFF, TRUE and
    FALSE (case ignored) gives no entry at all: it is skipped, not recorded
    with that token nor with the fallback. *)
Theorem unrecognised_default_is_skipped d tok :
  well_formed d = true -> d_default d = Some tok ->
  bare_token tok = true -> default_token tok = false ->
  options_of_content (source_text d) = [].
Proof.
  intros Hwf Hd Htok Hnot. rewrite options_of_content_map.
  rewrite (@finditer_no_match _ option_pattern_nonempty); [reflexivity|].
  intros pre t E. now apply (@no_match_in_declaration d tok pre t).
Qed.

Lemma unrecognised_default_is_skipped_witness :
  well_formed sample_unrecognised = true
  /\ d_default sample_unrecognised = Some (txt "MAYBE")
  /\ bare_token (txt "MAYBE") = true
  /\ default_token (txt "MAYBE") = false
  /\ options_of_content (source_text sample_unrecognised) = [].
Proof.
  split; [reflexivity|]. split; [reflexivity|]. split; [reflexivity|].
  split; [reflexivity|].
  apply (@unrecognised_default_is_skipped sample_unrecognised (txt "MAYBE"));
    reflexivity.
Defined.

(** C10: a description may hold newline characters and the declaration still
    matches; its row is rendered as written, so the one row takes several
    physical lines of the output. *)
Theorem newline_in_description_spans_lines d :
  well_formed d = true -> 0 < length (d_after_name d) ->
  default_written d = true ->
  In newline (d_description d) ->
  let e := entry_of_declaration d in
  let row := txt "| " ++ d_name d ++ txt " | " ++ d_description d
                 ++ txt " | " ++ default e ++ txt " |" in
  options_of_content (source_text d) = [e]
  /\ description e = d_description d
  /\ generate_doxygen_table [e]
     = join [newline] (table_heading ++ [install_prefix_row])
         ++ newline :: row
  /\ 2 <= physical_lines row
  /\ physical_lines (generate_doxygen_table [e]) = 5 + physical_lines row.
Proof.
  intros Hwf Hsep Hdef Hnl. cbv zeta.
  assert (Htable :
    generate_doxygen_table [entry_of_declaration d]
    = join [newline] (table_heading ++ [install_prefix_row])
        ++ newline :: (txt "| " ++ d_name d ++ txt " | " ++ d_description d
                         ++ txt " | " ++ default (entry_of_declaration d)
                         ++ txt " |")) by reflexivity.
  split; [|split; [reflexivity|split; [exact Htable|split]]].
  - rewrite <- (app_nil_r (source_text d)).
    rewrite options_of_declaration by auto using separated_nonempty.
    now rewrite options_of_empty.
  - apply physical_lines_newline. rewrite !in_app_iff. auto.
  - rewrite Htable, physical_lines_app. reflexivity.
Qed.

Lemma newline_in_description_spans_lines_witness :
  well_formed sample_two_lines = true
  /\ 0 < length (d_after_name sample_two_lines)
  /\ default_written sample_two_lines = true
  /\ In newline (d_description sample_two_lines)
  /\ physical_lines (generate_doxygen_table
                       [entry_of_declaration sample_two_lines]) = 7.
Proof.
  split; [reflexivity|]. split; [simpl; lia|]. split; [reflexivity|].
  split; [simpl; tauto|].
  destruct (@newline_in_description_spans_lines sample_two_lines)
    as (_ & _ & _ & _ & H);
    [reflexivity|simpl; lia|reflexivity|simpl; tauto|].
  rewrite H. reflexivity.
Defined.

(* ------------------------------------------------------------------ *)
(** ** Where the entries come from *)

Lemma matchable_parts d :
  matchable d = true ->
  well_formed d = true /\ d_after_name d <> [] /\ default_written d = true.
Proof.
  unfold matchable. intros H.
  apply andb_true_iff in H. destruct H as [H Hdef].
  apply andb_true_iff in H. destruct H as [Hwf Hsep].
  repeat split; auto. intros E. rewrite E in Hsep. discriminate.
Qed.

(** A match of the option pattern is the match of a declaration that stands
    at the head of the subject. *)
Lemma match_here_declaration s m :
  match_here option_pattern s = Some m ->
  exists d, s = source_text d ++ m_rest m /\ matchable d = true
            /\ m = MatchObject (groups_of_declaration d) (m_rest m).
Proof.
  intros H. pose proof H as H0. apply match_here_sound in H.
  destruct H as (w & Hs & L). apply option_pattern_lang in L.
  destruct L as (d & -> & Hwf & Hsep & Hdef). exists d.
  split; [exact Hs|]. split.
  - unfold matchable. rewrite Hwf, Hdef.
    destruct (d_after_name d); [congruence|reflexivity].
  - rewrite Hs in H0 at 1.
    rewrite (match_declaration d (m_rest m) Hwf Hsep Hdef) in H0.
    now inversion H0.
Qed.

(** Whatever the fuel, the matches found are those of declarations standing
    one after the other in the subject. *)
Lemma finditer_from_assemble : forall fuel s,
  exists l tail,
    s = assemble l tail
    /\ map entry_of_match (finditer_from fuel option_pattern s)
       = map (fun gd => entry_of_declaration (snd gd)) l
    /\ Forall (fun gd => matchable (snd gd) = true) l.
Proof.
  induction fuel as [|fuel IH]; intros s.
  - exists [], s. simpl. auto.
  - simpl. destruct (match_here option_pattern s) as [m|] eqn:E.
    + apply match_here_declaration in E.
      destruct E as (d & Hs & Hd & Hm).
      destruct (IH (m_rest m)) as (l & tail & Hrest & Hmap & Hall).
      exists (([], d) :: l), tail. repeat split.
      * simpl. now rewrite <- Hrest.
      * simpl. rewrite Hmap, Hm. f_equal.
        apply entry_of_declaration_match.
        now apply matchable_parts in Hd.
      * constructor; assumption.
    + destruct s as [|c s].
      * exists [], []. simpl. auto.
      * destruct (IH s) as (l & tail & Hs & Hmap & Hall).
        destruct l as [|[gap d] l].
        -- exists [], (c :: s). simpl. split; [reflexivity|].
           split; [exact Hmap|constructor].
        -- exists ((c :: gap, d) :: l), tail. repeat split.
           ++ simpl. simpl in Hs. now rewrite Hs.
           ++ exact Hmap.
           ++ inversion Hall; subst. constructor; assumption.
Qed.

Lemma options_of_content_assemble content :
  exists l tail,
    content = assemble l tail
    /\ options_of_content content
       = map (fun gd => entry_of_declaration (snd gd)) l
    /\ Forall (fun gd => matchable (snd gd) = true) l.
Proof.
  rewrite options_of_content_map. apply finditer_from_assemble.
Qed.

(** The three texts of an entry built from a matchable declaration. *)
Lemma entry_of_declaration_shape d :
  matchable d = true ->
  name_token (name (entry_of_declaration d)) = true
  /\ unquoted (description (entry_of_declaration d)) = true
  /\ default_token (default (entry_of_declaration d)) = true.
Proof.
  intros H. apply matchable_parts in H. destruct H as (Hwf & _ & Hdef).
  apply well_formed_parts in Hwf.
  destruct Hwf as (_ & _ & _ & Hnm & _ & Hdesc & _).
  unfold entry_of_declaration, default_written in *. simpl.
  repeat split; auto. destruct (d_default d); [exact Hdef|reflexivity].
Qed.

Lemma options_shape content e :
  In e (options_of_content content) ->
  name_token (name e) = true /\ unquoted (description e) = true
  /\ default_token (default e) = true.
Proof.
  destruct (options_of_content_assemble content) as (l & tail & _ & -> & Hall).
  intros Hin. apply in_map_iff in Hin. destruct Hin as (gd & <- & Hgd).
  rewrite Forall_forall in Hall. apply entry_of_declaration_shape.
  now apply Hall.
Qed.

(* ------------------------------------------------------------------ *)
(** ** Text between declarations *)

(** Only the letter o, in either case, starts the keyword. *)
Lemma literal_o c :
  literal_ignore 111%N c = true -> c = 111%N \/ c = 79%N.
Proof.
  unfold literal_ignore, ignorecase_fixes, sre_lower_unicode.
  split_ifs; cbn [existsb]; to_props; lia.
Qed.

Lemma match_here_not_o c s :
  literal_ignore 111%N c = false -> match_here option_pattern (c :: s) = None.
Proof.
  intros H. unfold match_here, option_pattern.
  change (txt "option") with [111; 112; 116; 105; 111; 110]%N.
  cbn [word rmatch atom_match]. now rewrite H.
Qed.

Lemma options_skip_gap gap s :
  no_keyword_start gap = true ->
  options_of_content (gap ++ s) = options_of_content s.
Proof.
  rewrite !options_of_content_map. induction gap as [|c gap IH]; intros H.
  - reflexivity.
  - simpl in H. apply andb_true_iff in H. destruct H as [Hc H].
    simpl. rewrite finditer_skip.
    + now apply IH.
    + apply match_here_not_o.
      destruct (literal_ignore 111%N c) eqn:E; [|reflexivity].
      apply literal_o in E. apply negb_true_iff, orb_false_iff in Hc.
      destruct Hc as [H1 H2]. apply N.eqb_neq in H1, H2. tauto.
Qed.

Lemma options_of_assemble l : forall tail,
  forallb (fun gd => no_keyword_start (fst gd) && matchable (snd gd)) l = true ->
  options_of_content (assemble l tail)
  = map (fun gd => entry_of_declaration (snd gd)) l ++ options_of_content tail.
Proof.
  induction l as [|[gap d] l IH]; intros tail H.
  - reflexivity.
  - simpl in H. apply andb_true_iff in H. destruct H as [Hgd H].
    apply andb_true_iff in Hgd. destruct Hgd as [Hgap Hd].
    apply matchable_parts in Hd. destruct Hd as (Hwf & Hsep & Hdef).
    simpl. rewrite options_skip_gap by exact Hgap.
    rewrite options_of_declaration by assumption.
    now rewrite IH.
Qed.

(* ------------------------------------------------------------------ *)
(** ** Quotes in the content and in the table *)

Lemma quotes_source_text d : 2 <= quotes (source_text d).
Proof.
  rewrite source_text_split.
  repeat (rewrite ?quotes_app, ?quotes_cons_quote). lia.
Qed.

Lemma quotes_assemble l tail : 2 * length l <= quotes (assemble l tail).
Proof.
  induction l as [|[gap d] l IH]; simpl; [lia|].
  rewrite !quotes_app. pose proof (quotes_source_text d). lia.
Qed.

Lemma options_bounded_by_quotes content :
  2 * length (options_of_content content) <= quotes content.
Proof.
  destruct (options_of_content_assemble content) as (l & tail & E & -> & _).
  rewrite length_map, E. apply quotes_assemble.
Qed.

Lemma quote_free_app a b : quote_free a -> quote_free b -> quote_free (a ++ b).
Proof. intros. apply Forall_app. now split. Qed.

Lemma quote_free_txt_computed t : quotes t = 0 -> quote_free t.
Proof. apply quote_free_quotes. Qed.

Lemma quote_free_join sep parts :
  quote_free sep -> Forall quote_free parts -> quote_free (join sep parts).
Proof.
  intros Hsep H. induction H as [|p parts Hp H IH]; simpl.
  - constructor.
  - destruct parts as [|q parts]; [exact Hp|].
    apply quote_free_app; [exact Hp|]. apply quote_free_app; assumption.
Qed.

Lemma shape_quote_free e :
  name_token (name e) = true -> unquoted (description e) = true ->
  default_token (default e) = true ->
  quote_free (table_row e).
Proof.
  intros Hn Hd Hv. unfold table_row.
  apply name_token_Forall in Hn. destruct Hn as [_ Hn].
  apply unquoted_Forall in Hd. apply default_token_letter_like in Hv.
  repeat apply quote_free_app;
    try (apply quote_free_txt_computed; reflexivity).
  - eapply Forall_impl; [|exact Hn]. intros c. apply name_class_not_quote.
  - eapply Forall_impl; [|exact Hd]. intros c. apply not_literal_quote.
  - eapply Forall_impl; [|exact Hv]. intros c. apply letter_like_not_quote.
Qed.

Lemma table_quote_free content :
  quote_free (generate_doxygen_table (options_of_content content)).
Proof.
  pose proof (options_shape content) as Hshape.
  destruct (options_of_content content) as [|e options].
  - apply quote_free_txt_computed. reflexivity.
  - rewrite generate_doxygen_table_rows. apply quote_free_join.
    + apply quote_free_txt_computed. reflexivity.
    + apply Forall_app. split.
      * unfold table_heading.
        repeat (apply Forall_cons;
                [apply quote_free_txt_computed; reflexivity|]).
        apply Forall_nil.
      * constructor; [apply quote_free_txt_computed; reflexivity|].
        apply Forall_forall. intros r Hr. apply in_map_iff in Hr.
        destruct Hr as (x & <- & Hx).
        destruct (Hshape x Hx) as (Hn & Hd & Hv). now apply shape_quote_free.
Qed.

(* ------------------------------------------------------------------ *)
(** ** Lines of the table *)

Lemma no_newline_Forall t :
  no_newline t = true <-> Forall (fun c => c <> newline) t.
Proof.
  unfold no_newline. rewrite forallb_forall, Forall_forall.
  split; intros H c Hc; apply H in Hc.
  - now apply negb_true_iff, N.eqb_neq in Hc.
  - now apply negb_true_iff, N.eqb_neq.
Qed.

Lemma no_newline_app a b :
  no_newline (a ++ b) = no_newline a && no_newline b.
Proof. apply forallb_app. Qed.

Lemma split_on_single t : no_newline t = true -> split_on newline t = [t].
Proof.
  induction t as [|c t IH]; simpl; intros H; [reflexivity|].
  apply andb_true_iff in H. destruct H as [Hc H].
  apply negb_true_iff in Hc. rewrite Hc, IH by exact H. reflexivity.
Qed.

Lemma split_on_line a b :
  no_newline a = true ->
  split_on newline (a ++ newline :: b) = a :: split_on newline b.
Proof.
  induction a as [|c a IH]; simpl; intros H; [reflexivity|].
  apply andb_true_iff in H. destruct H as [Hc H].
  apply negb_true_iff in Hc. rewrite Hc, IH by exact H. reflexivity.
Qed.

(** Splitting at the newlines undoes the join of lines without newline. *)
Lemma split_on_join parts :
  parts <> [] -> forallb no_newline parts = true ->
  split_on newline (join [newline] parts) = parts.
Proof.
  induction parts as [|p parts IH]; intros Hne H; [congruence|].
  simpl in H. apply andb_true_iff in H. destruct H as [Hp H].
  destruct parts as [|q parts].
  - simpl. now apply split_on_single.
  - change (join [newline] (p :: q :: parts))
      with (p ++ newline :: join [newline] (q :: parts)).
    rewrite split_on_line by exact Hp. f_equal. apply IH; [discriminate|exact H].
Qed.

Lemma single_line_row e : single_line e = true -> no_newline (table_row e) = true.
Proof.
  unfold single_line, table_row. intros H.
  apply andb_true_iff in H. destruct H as [H Hv].
  apply andb_true_iff in H. destruct H as [Hn Hd].
  rewrite !no_newline_app, Hn, Hd, Hv. reflexivity.
Qed.

(* ------------------------------------------------------------------ *)
(** ** Further properties of the extractor, the formatter and the entry
       point *)

(** X1: every entry the extractor returns, whatever the content, has a
    non-empty name made of characters of the name class, a description
    without double quote, and a default that spells ON, OFF, TRUE or FALSE
    (case ignored). *)
Theorem extracted_entry_shape content e :
  In e (options_of_content content) ->
  name_token (name e) = true
  /\ unquoted (description e) = true
  /\ default_token (default e) = true.
Proof. apply options_shape. Qed.

Lemma extracted_entry_shape_witness :
  In (OptionEntry (txt "FOO") (txt "bar") (txt "on"))
     (options_of_content (source_text sample_mixed_case))
  /\ name_token (txt "FOO") = true
  /\ unquoted (txt "bar") = true
  /\ default_token (txt "on") = true.
Proof.
  split; [vm_compute; auto|].
  apply (@extracted_entry_shape (source_text sample_mixed_case)
           (OptionEntry (txt "FOO") (txt "bar") (txt "on"))).
  vm_compute. auto.
Defined.

(** X2: the entries never come from anywhere but the content: the content
    splits into declarations the pattern accepts, standing one after the
    other without overlap (each after a gap of other text), and the entries
    are those of these declarations, in the same order. *)
Theorem entries_come_from_declarations content :
  exists l tail,
    content = assemble l tail
    /\ options_of_content content
       = map (fun gd => entry_of_declaration (snd gd)) l
    /\ Forall (fun gd => matchable (snd gd) = true) l.
Proof. apply options_of_content_assemble. Qed.

(** X3: declarations written one after the other, each after a gap without
    the letter o (a comment marker, white space, line ends), give their
    entries in order, duplicates included, and the scan goes on in the text
    after the last one. *)
Theorem declarations_in_sequence l tail :
  forallb (fun gd => no_keyword_start (fst gd) && matchable (snd gd)) l = true ->
  options_of_content (assemble l tail)
  = map (fun gd => entry_of_declaration (snd gd)) l ++ options_of_content tail.
Proof. intros H. now apply options_of_assemble. Qed.

Lemma declarations_in_sequence_witness :
  forallb (fun gd => no_keyword_start (fst gd) && matchable (snd gd))
          sample_sequence = true
  /\ options_of_content (assemble sample_sequence (txt " # end"))
     = [ OptionEntry (txt "FOO") (txt "bar") (txt "on");
         OptionEntry (txt "ENABLE_DOCS") (txt "Build docs") (txt "OFF");
         OptionEntry (txt "FOO") (txt "bar") (txt "on") ]
       ++ options_of_content (txt " # end").
Proof.
  split; [reflexivity|].
  apply (@declarations_in_sequence sample_sequence (txt " # end")).
  reflexivity.
Defined.

(** X4: every entry uses up two double quotes of the content: there are at
    most half as many entries as double quotes, and none in a content with
    fewer than two. *)
Theorem entries_bounded_by_quotes content :
  2 * length (options_of_content content) <= quotes content.
Proof. apply options_bounded_by_quotes. Qed.

(** X5: the table made from extracted entries holds no double quote, so
    the extractor finds nothing in the program's own output. *)
Theorem table_reparses_to_nothing content :
  quote_free (generate_doxygen_table (options_of_content content))
  /\ options_of_content (generate_doxygen_table (options_of_content content))
     = [].
Proof.
  pose proof (table_quote_free content) as Hq. split; [exact Hq|].
  apply quote_free_quotes in Hq.
  pose proof (options_bounded_by_quotes
                (generate_doxygen_table (options_of_content content))) as Hb.
  rewrite Hq in Hb.
  destruct (options_of_content
              (generate_doxygen_table (options_of_content content)));
    [reflexivity|simpl in Hb; lia].
Qed.

(** X6: when no name, description or default holds a newline, splitting the
    table at its newlines gives back the four heading lines, the
    installation-prefix row and one line per entry, in order. *)
Theorem table_lines_round_trip options :
  0 < length options -> forallb single_line options = true ->
  split_on newline (generate_doxygen_table options)
  = table_heading ++ install_prefix_row
      :: map (fun e => txt "| " ++ name e ++ txt " | " ++ description e
                          ++ txt " | " ++ default e ++ txt " |") options
  /\ physical_lines (generate_doxygen_table options) = 5 + length options.
Proof.
  intros Hlen Hall.
  destruct options as [|e options]; [simpl in Hlen; lia|].
  assert (E : split_on newline (generate_doxygen_table (e :: options))
              = table_heading ++ install_prefix_row
                  :: map table_row (e :: options)).
  { rewrite generate_doxygen_table_rows. apply split_on_join.
    - discriminate.
    - rewrite forallb_app. apply andb_true_iff. split; [reflexivity|].
      cbn [forallb]. apply andb_true_iff. split; [reflexivity|].
      rewrite forallb_forall in *. intros r Hr. apply in_map_iff in Hr.
      destruct Hr as (x & <- & Hx). apply single_line_row. now apply Hall. }
  split; [exact E|].
  unfold physical_lines. rewrite E, length_app. cbn [length].
  now rewrite length_map.
Qed.

Lemma table_lines_round_trip_witness :
  let options := [OptionEntry (txt "FOO") (txt "bar") (txt "ON")] in
  0 < length options
  /\ forallb single_line options = true
  /\ physical_lines (generate_doxygen_table options) = 6.
Proof.
  cbv zeta. split; [simpl; lia|]. split; [reflexivity|].
  destruct (@table_lines_round_trip
              [OptionEntry (txt "FOO") (txt "bar") (txt "ON")])
    as [_ H]; [simpl; lia|reflexivity|].
  rewrite H. reflexivity.
Defined.


(** X8: the entry of a declaration depends on its name, description and
    default only: the white space between the tokens and the case of the
    keyword do not matter. *)
Theorem entry_independent_of_layout d1 d2 :
  matchable d1 = true -> matchable d2 = true ->
  d_name d1 = d_name d2 -> d_description d1 = d_description d2 ->
  d_default d1 = d_default d2 ->
  options_of_content (source_text d1) = options_of_content (source_text d2).
Proof.
  intros H1 H2 Hn Hd Hv.
  apply matchable_parts in H1, H2.
  destruct H1 as (Hwf1 & Hsep1 & Hdef1). destruct H2 as (Hwf2 & Hsep2 & Hdef2).
  rewrite <- (app_nil_r (source_text d1)), <- (app_nil_r (source_text d2)).
  rewrite !options_of_declaration by assumption.
  unfold entry_of_declaration. now rewrite Hn, Hd, Hv.
Qed.

Lemma entry_independent_of_layout_witness :
  matchable sample_mixed_case = true
  /\ matchable sample_other_layout = true
  /\ options_of_content (source_text sample_mixed_case)
     = options_of_content (source_text sample_other_layout).
Proof.
  split; [reflexivity|]. split; [reflexivity|].
  apply (@entry_independent_of_layout sample_mixed_case sample_other_layout);
    reflexivity.
Defined.

(** X9: whatever the file system, the extractor returns a list: it never
    exits, it leaves standard output as it was, and it only appends to
    standard error. *)
Theorem extractor_returns_and_keeps_stdout fs path ch :
  exists options ch',
    parse_cmake_options fs path ch = (Return options, ch')
    /\ out ch' = out ch
    /\ exists added, err ch' = err ch ++ added.
Proof.
  unfold parse_cmake_options. destruct (open_read fs path) as [content|e].
  - exists (options_of_content content), ch. repeat split.
    exists []. now rewrite app_nil_r.
  - unfold bind, print_stderr, ret. simpl. eexists _, _.
    split; [reflexivity|]. split; [reflexivity|]. simpl. eauto.
Qed.

(** X10: the formatter gives the sentence [No CMake options found.] for the
    empty list only: a table never reads like the empty-result sentence. *)
Theorem empty_message_only_for_no_options options :
  generate_doxygen_table options = txt "No CMake options found."
  <-> options = [].
Proof.
  split.
  - destruct options as [|e options]; [reflexivity|].
    rewrite generate_doxygen_table_rows. intros H. vm_compute in H.
    discriminate H.
  - intros ->. reflexivity.
Qed.









(** X12: when the file is read but standard output cannot encode a
    character of the table, the [print] of line 97 raises and nothing
    catches it: standard output stays empty, standard error holds the
    traceback, and the exit status is 1. *)
Theorem unprintable_table_exits_1 argv fs content :
  isfile fs (cmake_path_of argv) = true ->
  open_read fs (cmake_path_of argv) = ReadOk content ->
  encodable_text fs (generate_doxygen_table (options_of_content content))
  = false ->
  run argv fs
  = Outcome []
      (traceback_head ++ newline
         :: traceback_body fs
              (UnicodeEncodeError
                 (generate_doxygen_table (options_of_content content))))
      1.
Proof.
  intros Hfile Hread Hdoc.
  rewrite (run_readable argv fs Hfile Hread). now rewrite Hdoc.
Qed.

Lemma unprintable_table_exits_1_witness :
  let content := source_text sample_accented in
  let fs := sample_ascii_terminal (ReadOk content) in
  let argv := [txt "doxygenize_cmake_options.py"] in
  isfile fs (cmake_path_of argv) = true
  /\ open_read fs (cmake_path_of argv) = ReadOk content
  /\ encodable_text fs (generate_doxygen_table (options_of_content content))
     = false
  /\ stdout (run argv fs) = []
  /\ exit_code (run argv fs) = 1.
Proof.
  cbv zeta. split; [reflexivity|]. split; [reflexivity|].
  split; [vm_compute; reflexivity|].
  rewrite (@unprintable_table_exits_1
             [txt "doxygenize_cmake_options.py"]
             (sample_ascii_terminal (ReadOk (source_text sample_accented)))
             (source_text sample_accented));
    [split; reflexivity|reflexivity|reflexivity|vm_compute; reflexivity].
Defined.
